(** * VizSNP annotation pipeline: a shallow embedding of [vizsnp.js]

    The development follows the source file function by function:
    the JavaScript string and array primitives the pipeline relies on
    ([Js]), the query-line formatter [parseVariant], the batching
    generator [chunk], the indexed reader [readVcfFile], the record
    assembler [processVariantConsequences] with its two URL builders, and
    the polling client [getProteinIds].

    Modelling conventions.
    - A JavaScript string is a [string] holding its UTF-8 bytes.  All the
      separators and patterns the source searches for are ASCII, so
      searching bytes and searching UTF-16 code units agree.
    - A property that may be missing is an [option]; [None] is
      [undefined].
    - Integer-valued numbers are [Z]; numbers that are only carried from
      the input to the output (prediction scores, coverage) are [Q].
    - An uncaught exception is the [Throw] outcome of [Completion].
    - The JSON responses are typed after the fields the source reads: a
      label or an accession is a string, a candidate list is an array.
    - Remote services, the block index and the clock are parameters; the
      calls made to them are recorded in a trace of events. The calendar
      date is taken to be the same for all the URLs built in one call.
    - A loop that may run for ever ([chunk] with a size of 0, the polling
      loop) takes fuel and answers [None] when the fuel is spent. *)

From stdpp Require Import gmap strings list pretty.
From Stdlib Require Import Ascii QArith.QArith_base.

Local Open Scope Z_scope.

(** ** JavaScript primitives *)

Module Js.

(** [Boolean(s)] for a string: only the empty string is falsy. *)
Definition truthy_string (s : string) : bool :=
  match s with "" => false | _ => true end.

(** [Boolean(v)] for a possibly missing string property. *)
Definition truthy (v : option string) : bool :=
  match v with Some s => truthy_string s | None => false end.

(** [Array.prototype.join] on an array of strings. *)
Fixpoint join (sep : string) (l : list string) : string :=
  match l with
  | [] => ""
  | [x] => x
  | x :: rest => x +:+ sep +:+ join sep rest
  end.

(** Inside [join], [undefined] and [null] elements print as the empty
    string. *)
Definition join_opt (sep : string) (l : list (option string)) : string :=
  join sep (default "" <$> l).

(** [String(n)] for an integer-valued number. *)
Definition number_to_string (n : Z) : string := pretty n.

(** A template-literal hole [${v}] for a possibly missing value. *)
Definition template (v : option string) : string := default "undefined" v.

(** [s.startsWith(p)]. *)
Fixpoint starts_with (p s : string) : bool :=
  match p, s with
  | "", _ => true
  | String a p', String b s' => if decide (a = b) then starts_with p' s' else false
  | String _ _, "" => false
  end.

(** Drops the first [n] characters. *)
Fixpoint drop_chars (n : nat) (s : string) : string :=
  match n, s with
  | O, _ => s
  | S n', String _ s' => drop_chars n' s'
  | S _, "" => ""
  end.

(** [s.includes(p)]. *)
Fixpoint includes (p s : string) : bool :=
  if starts_with p s then true
  else match s with
       | "" => false
       | String _ s' => includes p s'
       end.

(** [s.replace(p, r)] with a string pattern: only the first occurrence,
    wherever it is, is replaced. *)
Fixpoint replace (p r s : string) : string :=
  if starts_with p s then r +:+ drop_chars (String.length p) s
  else match s with
       | "" => ""
       | String a s' => String a (replace p r s')
       end.

(** [s.split(c)] for a one-character separator. The result is never
    empty: a string without the separator gives the one-element array
    [[s]]. *)
Fixpoint split (sep : ascii) (s : string) : list string :=
  match s with
  | "" => [""]
  | String a s' =>
      if decide (a = sep) then "" :: split sep s'
      else match split sep s' with
           | [] => [String a ""]
           | w :: ws => String a w :: ws
           end
  end.

(** [a.slice(start, end)] for integer arguments: a negative index counts
    from the end, and both are clamped to the array. *)
Definition relative_index (len k : Z) : Z :=
  if k <? 0 then Z.max (len + k) 0 else Z.min k len.

Definition slice {A} (l : list A) (start stop : Z) : list A :=
  let len := Z.of_nat (length l) in
  let k := relative_index len start in
  let final := relative_index len stop in
  take (Z.to_nat (final - k)) (drop (Z.to_nat k) l).

(** [encodeURIComponent]: every byte outside the unreserved set is
    written as a percent sign and two upper-case hexadecimal digits. *)
Definition is_unreserved (a : ascii) : bool :=
  let n := Ascii.N_of_ascii a in
  ((65 <=? n) && (n <=? 90) || (97 <=? n) && (n <=? 122)
   || (48 <=? n) && (n <=? 57))%N
  || bool_decide (a ∈ ["-"; "_"; "."; "!"; "~"; "*"; "'"; "("; ")"]%char).

Definition hex_digit (n : N) : ascii :=
  (if n <? 10 then Ascii.ascii_of_N (48 + n)
   else Ascii.ascii_of_N (55 + n))%N.

Fixpoint encodeURIComponent (s : string) : string :=
  match s with
  | "" => ""
  | String a s' =>
      if is_unreserved a then String a (encodeURIComponent s')
      else
        let n := Ascii.N_of_ascii a in
        String "%"%char (String (hex_digit (n / 16)) (String (hex_digit (n mod 16))
          (encodeURIComponent s')))
  end.

(** An uncaught exception or a normal result. *)
Inductive Error := TypeError.

Inductive Completion (A : Type) :=
| Normal (a : A)
| Throw (e : Error).
Global Arguments Normal {A} a.
Global Arguments Throw {A} e.

Global Instance completion_ret : MRet Completion := λ A a, Normal a.
Global Instance completion_bind : MBind Completion := λ A B k c,
  match c with
  | Normal a => k a
  | Throw e => Throw e
  end.

(** Runs [f] on each element, left to right, stopping at the first
    exception. *)
Fixpoint for_each {A B} (f : A → Completion B) (l : list A) : Completion (list B) :=
  match l with
  | [] => Normal []
  | x :: rest =>
      y ← f x; ys ← for_each f rest; mret (y :: ys)
  end.

End Js.

(** ** Data model *)

(** A parsed line of the variant file, as the VCF parser hands it over. A
    [.] in the identifier or alternate-allele column is parsed to a
    missing property. The columns the pipeline never reads are left
    out. *)
Record VariantRecord := {
  CHROM : option string;
  POS : option Z;
  ID : option (list string);
  REF : option string;
  ALT : option (list string);
}.

(** ** Query-line formatter: [parseVariant] *)

(** [if (CHROM) CHROM = CHROM.replace("chr", "")] *)
Definition strip_chrom (chrom : option string) : option string :=
  if Js.truthy chrom then Js.replace "chr" "" <$> chrom else chrom.

(** [if (ID) ID = ID[0]]: an array is truthy even when it is empty, and
    then its element 0 is [undefined]. *)
Definition first_id (id : option (list string)) : option string :=
  id ≫= head.

(** [if (ALT) ALT = ALT.join(",")] *)
Definition join_alt (alt : option (list string)) : option string :=
  Js.join "," <$> alt.

(** [[CHROM, POS, ID, REF, ALT, null].map((e) => e ?? ".").join(" ")] *)
Definition parseVariant (variant : VariantRecord) : string :=
  Js.join " "
    (default "." <$>
       [ strip_chrom (CHROM variant);
         Js.number_to_string <$> POS variant;
         first_id (ID variant);
         REF variant;
         join_alt (ALT variant);
         None ]).

(** ** Batcher: the generator [chunk] *)

Module Chunk.
Section generator.
Context {A : Type}.

(** One resumption of the generator whose loop counter is [i]: either the
    next yielded batch with the advanced counter, or completion. *)
Definition next (array : list A) (chunkSize : Z) (i : Z) : option (list A * Z) :=
  if i <? Z.of_nat (length array)
  then Some (Js.slice array i (i + chunkSize), i + chunkSize)
  else None.

(** Draining the generator, as [for await (... of chunk(...))] does.
    [None] means that the generator was still yielding after [fuel]
    batches. *)
Fixpoint drain (fuel : nat) (array : list A) (chunkSize : Z) (i : Z)
  : option (list (list A)) :=
  match fuel with
  | O => None
  | S fuel' =>
      match next array chunkSize i with
      | None => Some []
      | Some (batch, i') => (batch ::.) <$> drain fuel' array chunkSize i'
      end
  end.
End generator.
End Chunk.

(** [chunk(array, chunkSize)], drained: [let i = 0] starts the loop. *)
Definition chunk {A} (fuel : nat) (array : list A) (chunkSize : Z)
  : option (list (list A)) :=
  Chunk.drain fuel array chunkSize 0.

(** ** Indexed Variant Reader: [readVcfFile] *)

(** What the reader needs from the indexed file and the VCF parser, both
    library code: the contig names of the header in the order of
    [Object.keys(metadata.contig)], the lines the block index delivers
    for a reference sequence, and the line parser. *)
Record IndexedFile := {
  refNames : list string;
  linesOf : string → list string;
  parseLine : string → VariantRecord;
}.

(** A block-lookup read: [tbiIndexed.getLines(refName, 0, undefined, cb)]. *)
Inductive ReadEvent :=
| GetLines (refName : string).

Global Instance ReadEvent_eq_dec : EqDecision ReadEvent.
Proof. solve_decision. Defined.

Module Reader.
(** [!filter || line.includes(filter)] *)
Definition passes (filter : option string) (line : string) : bool :=
  negb (Js.truthy filter) || Js.includes (default "" filter) line.

(** The line callback. *)
Definition on_line (file : IndexedFile) (limit : Z) (filter : option string)
    (variants : list VariantRecord) (line : string) : list VariantRecord :=
  if (Z.of_nat (length variants) <? limit) && passes filter line
  then variants ++ [parseLine file line]
  else variants.

(** One iteration of [for (let refName of refNames)]: the read is
    issued, then the callback runs on every delivered line. *)
Definition on_ref (file : IndexedFile) (limit : Z) (filter : option string)
    (st : list ReadEvent * list VariantRecord) (refName : string)
  : list ReadEvent * list VariantRecord :=
  (st.1 ++ [GetLines refName],
   foldl (on_line file limit filter) st.2 (linesOf file refName)).

Definition loop (file : IndexedFile) (limit : Z) (filter : option string)
    (names : list string) : list ReadEvent * list VariantRecord :=
  foldl (on_ref file limit filter) ([], []) names.
End Reader.

(** The reads issued and the variants returned. *)
Definition readVcfFile (file : IndexedFile) (limit : Z) (filter : option string)
  : list ReadEvent * list VariantRecord :=
  Reader.loop file limit filter (refNames file).

(** ** Record Assembler: data *)

(** One transcript-level consequence of the consequence service's JSON
    response. *)
Record TranscriptConsequence := {
  gene_id : option string;
  swissprot : option (list string);
  amino_acids : option string;
  protein_start : option Z;
  sift_prediction : option string;
  sift_score : option Q;
  polyphen_prediction : option string;
  polyphen_score : option Q;
}.

(** One element of the response array. *)
Record ConsequencePrediction := {
  input : option string;
  transcript_consequences : option (list TranscriptConsequence);
}.

(** One candidate of the structure-mapping response. *)
Record StructureCandidate := {
  pdb_id : string;
  chain_id : string;
  coverage : Q;
  resolution : option Q;
}.

(** The object pushed on [results]. [pdbId], [icn3dPdb] and
    [icn3dAlphafold] start as [null] ([None]); [pdbStructures] is added by
    the second loop. *)
Record AnnotatedVariant := {
  variant : option string;
  geneId : option string;
  uniprotId : string;
  pdbId : option string;
  aminoAcids : list string;
  aminoAcidMutation : string;
  aminoAcidMutationPosition : option Z;
  siftPrediction : option string;
  siftScore : option Q;
  polyphenPrediction : option string;
  polyphenScore : option Q;
  icn3dPdb : option string;
  icn3dAlphafold : option string;
  consequence : TranscriptConsequence;
  pdbStructures : option (list StructureCandidate);
}.

(** [result.pdbId = id; result.pdbStructures = structures] *)
Definition set_structure (id : string) (structures : list StructureCandidate)
    (r : AnnotatedVariant) : AnnotatedVariant :=
  {| variant := variant r; geneId := geneId r; uniprotId := uniprotId r;
     pdbId := Some id;
     aminoAcids := aminoAcids r; aminoAcidMutation := aminoAcidMutation r;
     aminoAcidMutationPosition := aminoAcidMutationPosition r;
     siftPrediction := siftPrediction r; siftScore := siftScore r;
     polyphenPrediction := polyphenPrediction r; polyphenScore := polyphenScore r;
     icn3dPdb := icn3dPdb r; icn3dAlphafold := icn3dAlphafold r;
     consequence := consequence r;
     pdbStructures := Some structures |}.

(** [result.icn3dPdb = url] *)
Definition set_icn3dPdb (url : string) (r : AnnotatedVariant) : AnnotatedVariant :=
  {| variant := variant r; geneId := geneId r; uniprotId := uniprotId r;
     pdbId := pdbId r;
     aminoAcids := aminoAcids r; aminoAcidMutation := aminoAcidMutation r;
     aminoAcidMutationPosition := aminoAcidMutationPosition r;
     siftPrediction := siftPrediction r; siftScore := siftScore r;
     polyphenPrediction := polyphenPrediction r; polyphenScore := polyphenScore r;
     icn3dPdb := Some url; icn3dAlphafold := icn3dAlphafold r;
     consequence := consequence r;
     pdbStructures := pdbStructures r |}.

(** [result.icn3dAlphafold = url] *)
Definition set_icn3dAlphafold (url : string) (r : AnnotatedVariant) : AnnotatedVariant :=
  {| variant := variant r; geneId := geneId r; uniprotId := uniprotId r;
     pdbId := pdbId r;
     aminoAcids := aminoAcids r; aminoAcidMutation := aminoAcidMutation r;
     aminoAcidMutationPosition := aminoAcidMutationPosition r;
     siftPrediction := siftPrediction r; siftScore := siftScore r;
     polyphenPrediction := polyphenPrediction r; polyphenScore := polyphenScore r;
     icn3dPdb := icn3dPdb r; icn3dAlphafold := Some url;
     consequence := consequence r;
     pdbStructures := pdbStructures r |}.

(** ** [encodeUrl] and the two viewer URLs *)

(** A property value of the object given to [encodeUrl]: a string or an
    array of strings ([Array.isArray(v) ? v : [v]]). *)
Inductive UrlValue :=
| Single (s : string)
| Many (l : list string).

Definition url_values (v : UrlValue) : list string :=
  match v with Single s => [s] | Many l => l end.

(** The object is given by its entries in insertion order. *)
Definition encodeUrl (object : list (string * UrlValue)) (encode : bool) : string :=
  let enc s := if encode then Js.encodeURIComponent s else s in
  Js.join "&"
    ((λ kv, enc kv.1 +:+ "=" +:+ Js.join "," (enc <$> url_values kv.2)) <$> object).

(** The three calendar getters read off [new Date()]. *)
Record Date := {
  getFullYear : Z;
  getMonth : Z;
  getDate : Z;
}.

(** [[date.getFullYear(), date.getMonth() + 1, date.getDate()].join("")] *)
Definition date_stamp (date : Date) : string :=
  Js.join "" (Js.number_to_string <$> [getFullYear date; getMonth date + 1; getDate date]).

Definition icn3d_base : string :=
  "https://www.ncbi.nlm.nih.gov/Structure/icn3d/full.html".

(** [${result.aminoAcidMutationPosition}] *)
Definition position_text (r : AnnotatedVariant) : string :=
  Js.template (Js.number_to_string <$> aminoAcidMutationPosition r).

(** [${result.aminoAcidMutationPosition + offset}]: [undefined + 0] is
    [NaN]. *)
Definition offset_position_text (r : AnnotatedVariant) (offset : Z) : string :=
  match aminoAcidMutationPosition r with
  | Some n => Js.number_to_string (n + offset)
  | None => "NaN"
  end.

(** [${result.aminoAcids[1]}] *)
Definition mutant_text (r : AnnotatedVariant) : string :=
  Js.template (aminoAcids r !! 1%nat).

Definition getIcn3dAlphafoldUrl (date : Date) (result : AnnotatedVariant) : string :=
  let chain := uniprotId result +:+ "_A" in
  let params :=
    [ ("afid", Single (uniprotId result));
      ("date", Single (date_stamp date));
      ("v", Single "3.12.7");
      ("command", Single (Js.join "; "
         [ "view annotations";
           "set annotation cdd";
           "set view detailed view";
           "set thickness | stickrad 0.2";
           "add track | chainid " +:+ chain +:+ " | title SIFT_predict | text "
             +:+ position_text result +:+ " " +:+ mutant_text result;
           "add track | chainid " +:+ chain +:+ " | title Polyphen_predict | text "
             +:+ position_text result +:+ " " +:+ mutant_text result;
           "scap interaction " +:+ chain +:+ "_" +:+ position_text result
             +:+ "_" +:+ mutant_text result ])) ] in
  icn3d_base +:+ "?" +:+ encodeUrl params true.

(** [pdbId] is [null] until a structure is attached, and [null] prints as
    ["null"]. *)
Definition getIcn3dPdbUrl (date : Date) (result : AnnotatedVariant) : string :=
  let offset := 0 in
  let pdb := default "null" (pdbId result) in
  let params :=
    [ ("pdbid", Single pdb);
      ("date", Single (date_stamp date));
      ("v", Single "3.12.7");
      ("command", Single (Js.join "; "
         [ "view annotations";
           "set annotation cdd";
           "set view detailed view";
           "set thickness | stickrad 0.2";
           "add track | chainid " +:+ pdb +:+ " | title SIFT_predict | text "
             +:+ offset_position_text result offset +:+ " " +:+ mutant_text result;
           "add track | chainid " +:+ pdb +:+ " | title Polyphen_predict | text "
             +:+ offset_position_text result offset +:+ " " +:+ mutant_text result;
           "scap interaction " +:+ pdb +:+ "_" +:+ offset_position_text result offset
             +:+ "_" +:+ mutant_text result ])) ] in
  icn3d_base +:+ "?" +:+ encodeUrl params true.

(** ** Structure Mapper: [getBestStructures] *)

(** The parsed response of the structure-mapping service: a plain object
    from accession to ordered candidate list. *)
Abbreviation StructureMapping := (gmap string (list StructureCandidate)).

(** The remote calls of the assembler. *)
Inductive RemoteCall :=
| BestStructures (uniprotIds : list string).

(** The service answers the posted body, [uniprotIds.join(",")]. *)
Definition getBestStructures (pdbe : string → StructureMapping)
    (uniprotIds : list string) : StructureMapping :=
  pdbe (Js.join "," uniprotIds).

(** Property names every plain object inherits from [Object.prototype]. *)
Definition object_prototype_keys : list string :=
  [ "constructor"; "__defineGetter__"; "__defineSetter__"; "hasOwnProperty";
    "__lookupGetter__"; "__lookupSetter__"; "isPrototypeOf";
    "propertyIsEnumerable"; "toString"; "valueOf"; "__proto__";
    "toLocaleString" ].

(** What [bestStructures[key]] evaluates to: an own candidate list, an
    inherited member of [Object.prototype] (truthy, and without an element
    0), or [undefined]. *)
Inductive PropertyValue :=
| Own (structures : list StructureCandidate)
| Inherited
| Undefined.

Definition get_property (bestStructures : StructureMapping) (key : string)
  : PropertyValue :=
  match bestStructures !! key with
  | Some structures => Own structures
  | None =>
      if bool_decide (key ∈ object_prototype_keys) then Inherited else Undefined
  end.

(** ** Record Assembler: [processVariantConsequences] *)

Module Assembler.

(** [(c.sift_prediction || c.polyphen_prediction) && c.swissprot?.length] *)
Definition eligible (c : TranscriptConsequence) : bool :=
  (Js.truthy (sift_prediction c) || Js.truthy (polyphen_prediction c))
  && match swissprot c with
     | Some (_ :: _) => true
     | _ => false
     end.

(** [result?.transcript_consequences?.find(...)] *)
Definition select (result : option ConsequencePrediction)
  : option TranscriptConsequence :=
  r ← result; tcs ← transcript_consequences r; List.find eligible tcs.

(** [consequence.swissprot[0].split(".")[0]]: reading [[0]] of a missing
    or empty accession list and calling [split] on it throws. *)
Definition accession (c : TranscriptConsequence) : Js.Completion string :=
  match swissprot c with
  | Some (first :: _) => Js.Normal (default "" (head (Js.split "." first)))
  | _ => Js.Throw Js.TypeError
  end.

(** [consequence.amino_acids.split("/")] *)
Definition amino_acid_parts (c : TranscriptConsequence) : Js.Completion (list string) :=
  match amino_acids c with
  | Some s => Js.Normal (Js.split "/" s)
  | None => Js.Throw Js.TypeError
  end.

(** The body of the first loop for one element of [data]: [None] is
    [continue]. *)
Definition first_pass (result : option ConsequencePrediction)
  : Js.Completion (option AnnotatedVariant) :=
  match select result with
  | None => Js.Normal None
  | Some c =>
      id ← accession c;
      parts ← amino_acid_parts c;
      mret (Some
        {| variant := result ≫= input;
           geneId := gene_id c;
           uniprotId := id;
           pdbId := None;
           aminoAcids := parts;
           aminoAcidMutation :=
             Js.join_opt ""
               [ parts !! 0%nat;
                 Js.number_to_string <$> protein_start c;
                 parts !! 1%nat ];
           aminoAcidMutationPosition := protein_start c;
           siftPrediction := sift_prediction c;
           siftScore := sift_score c;
           polyphenPrediction := polyphen_prediction c;
           polyphenScore := polyphen_score c;
           icn3dPdb := None;
           icn3dAlphafold := None;
           consequence := c;
           pdbStructures := None |})
  end.

(** The first loop: the records pushed on [results], in order. *)
Definition collect (data : list (option ConsequencePrediction))
  : Js.Completion (list AnnotatedVariant) :=
  pushed ← Js.for_each first_pass data;
  mret (omap id (pushed : list (option AnnotatedVariant))).

(** The body of the second loop. *)
Definition attach (bestStructures : StructureMapping) (result : AnnotatedVariant)
  : Js.Completion AnnotatedVariant :=
  match get_property bestStructures (uniprotId result) with
  | Undefined => Js.Normal result
  | Own (highest :: rest) =>
      Js.Normal
        (set_structure (Js.join "_" [pdb_id highest; chain_id highest])
           (highest :: rest) result)
  | Own [] => Js.Throw Js.TypeError
  | Inherited => Js.Throw Js.TypeError
  end.

(** The guard of the third loop, negated: the record is not skipped. *)
Definition high_impact (result : AnnotatedVariant) : bool :=
  bool_decide (siftPrediction result = Some "deleterious")
  || bool_decide (polyphenPrediction result = Some "probably_damaging").

(** The body of the third loop. *)
Definition visualize (date : Date) (result : AnnotatedVariant) : AnnotatedVariant :=
  if negb (high_impact result) then result
  else
    let result :=
      if Js.truthy (pdbId result)
      then set_icn3dPdb (getIcn3dPdbUrl date result) result
      else result in
    set_icn3dAlphafold (getIcn3dAlphafoldUrl date result) result.

(** The second and third loops, once the mapper has answered. *)
Definition annotate (bestStructures : StructureMapping) (date : Date)
    (results : list AnnotatedVariant) : Js.Completion (list AnnotatedVariant) :=
  attached ← Js.for_each (attach bestStructures) results;
  mret (visualize date <$> (attached : list AnnotatedVariant)).

End Assembler.

(** The remote calls issued and the outcome. [pdbe] is the
    structure-mapping service and [date] the calendar date of the clock
    during the call. *)
Definition processVariantConsequences (pdbe : string → StructureMapping)
    (date : Date) (data : list (option ConsequencePrediction))
  : list RemoteCall * Js.Completion (list AnnotatedVariant) :=
  match Assembler.collect data with
  | Js.Throw e => ([], Js.Throw e)
  | Js.Normal results =>
      let uniprotIds := uniprotId <$> results in
      let bestStructures := getBestStructures pdbe uniprotIds in
      ([BestStructures uniprotIds], Assembler.annotate bestStructures date results)
  end.

(** ** Protein-id-mapping client: [getProteinIds] *)

(** What the client does to the outside world. *)
Inductive ClientEvent :=
| Fetch (url : string) (body : option string)
| Sleep (ms : Z).

Global Instance ClientEvent_eq_dec : EqDecision ClientEvent.
Proof. solve_decision. Defined.

(** The id-mapping service: the job id it answers to a submitted body, and
    the [results] field of its answer to the [n]-th status request for a
    url ([None] when the field is missing, [null] or otherwise falsy). *)
Record IdMapping (R : Type) := {
  run_job : string → option string;
  status_results : string → nat → option R;
}.
Global Arguments run_job {R}.
Global Arguments status_results {R}.

Module ProteinIds.
Section client.
Context {R : Type} (service : IdMapping R).

Definition url : string := "https://rest.uniprot.org/idmapping".

Definition status_url (jobId : option string) : string :=
  url +:+ "/status/" +:+ Js.template jobId.

(** The [while (!status.results)] loop after [polls] status requests.
    [None] as result: the loop is still running when the fuel is
    spent. *)
Fixpoint wait (fuel : nat) (jobId : option string) (polls : nat)
  : list ClientEvent * option R :=
  match fuel with
  | O => ([], None)
  | S fuel' =>
      let request := Fetch (status_url jobId) None in
      match status_results service (status_url jobId) polls with
      | Some results => ([request], Some results)
      | None =>
          let rest := wait fuel' jobId (S polls) in
          (request :: Sleep 1000 :: rest.1, rest.2)
      end
  end.
End client.
End ProteinIds.

Definition getProteinIds {R} (service : IdMapping R) (fuel : nat)
    (ids : UrlValue) (from to : string) : list ClientEvent * option R :=
  let body := encodeUrl [("from", Single from); ("to", Single to); ("ids", ids)] false in
  let jobId := run_job service body in
  let polling := ProteinIds.wait service fuel jobId 0 in
  (Fetch (ProteinIds.url +:+ "/run") (Some body) :: polling.1, polling.2).

(** ** Consequence Resolver: [getVariantConsequences] *)

Module Json.
Definition double_quote : ascii := "034"%char.
Definition backslash : ascii := "092"%char.

Definition lower_hex_digit (n : N) : ascii :=
  (if n <? 10 then Ascii.ascii_of_N (48 + n)
   else Ascii.ascii_of_N (87 + n))%N.

(** How [JSON.stringify] writes one byte of a string: the two-character
    escapes, [\u00XX] for the other control characters, and the byte
    itself otherwise. *)
Definition escape (a : ascii) : string :=
  let n := Ascii.N_of_ascii a in
  let short (c : ascii) := String backslash (String c "") in
  if (n =? 34)%N then short double_quote
  else if (n =? 92)%N then short backslash
  else if (n =? 8)%N then short "b"%char
  else if (n =? 9)%N then short "t"%char
  else if (n =? 10)%N then short "n"%char
  else if (n =? 12)%N then short "f"%char
  else if (n =? 13)%N then short "r"%char
  else if (n <? 32)%N then
    String backslash ("u00" +:+
      String (lower_hex_digit (n / 16)) (String (lower_hex_digit (n mod 16)) ""))
  else String a "".

Fixpoint escape_all (s : string) : string :=
  match s with
  | "" => ""
  | String a s' => escape a +:+ escape_all s'
  end.

(** [JSON.stringify(s)] for a string. *)
Definition quote (s : string) : string :=
  String double_quote (escape_all s +:+ String double_quote "").

(** [JSON.stringify({ variants })] for an array of strings. *)
Definition stringify_variants (variants : list string) : string :=
  "{" +:+ quote "variants" +:+ ":[" +:+ Js.join "," (quote <$> variants) +:+ "]}".
End Json.

(** The consequence service answers a posted body at a url with an array
    of predictions ([null] elements are [None]). *)
Definition vep_url (species : string) : string :=
  "https://rest.ensembl.org/vep/" +:+ species +:+ "/region?uniprot=1".

Definition getVariantConsequences
    (ensembl : string → string → list (option ConsequencePrediction))
    (variants : list string) (species : string)
  : list (option ConsequencePrediction) :=
  ensembl (vep_url species) (Json.stringify_variants variants).

(** ** Pipeline Driver: [vizsnp] *)

(** The outside world of one run: the two remote services and the
    calendar date during the processing of the [k]-th batch. *)
Record Services := {
  ensembl : string → string → list (option ConsequencePrediction);
  pdbe : string → StructureMapping;
  clock : nat → Date;
}.

(** Everything the pipeline does to the outside world, in order. *)
Inductive PipelineEvent :=
| Reading (e : ReadEvent)
| Request (e : ClientEvent)
| Mapping (c : RemoteCall).

Module Pipeline.
(** The [for await] loop: the generator [chunk(vcfFileContents, 200)] is
    resumed with loop counter [i]; [k] batches have been processed and
    [results] accumulated. [None] as outcome: the generator was still
    yielding when the fuel was spent. *)
Fixpoint batches (fuel : nat) (services : Services) (species : string)
    (vcfFileContents : list VariantRecord) (i : Z) (k : nat)
    (results : list AnnotatedVariant)
  : list PipelineEvent * option (Js.Completion (list AnnotatedVariant)) :=
  match fuel with
  | O => ([], None)
  | S fuel' =>
      match Chunk.next vcfFileContents 200 i with
      | None => ([], Some (Js.Normal results))
      | Some (variants, i') =>
          let parsedVariants := parseVariant <$> variants in
          let request :=
            Request (Fetch (vep_url species)
                       (Some (Json.stringify_variants parsedVariants))) in
          let variantConsequences :=
            getVariantConsequences (ensembl services) parsedVariants species in
          let processed :=
            processVariantConsequences (pdbe services) (clock services k)
              variantConsequences in
          match processed.2 with
          | Js.Throw e =>
              (request :: (Mapping <$> processed.1), Some (Js.Throw e))
          | Js.Normal processedVariantConsequences =>
              let rest :=
                batches fuel' services species vcfFileContents i' (S k)
                  (results ++ processedVariantConsequences) in
              (request :: (Mapping <$> processed.1) ++ rest.1, rest.2)
          end
      end
  end.
End Pipeline.

(** [vizsnp(vcfFileHandle, tbiFileHandle, limit = 1000, filter = null,
    species = "human")]; a missing argument is [None]. *)
Definition vizsnp (fuel : nat) (file : IndexedFile) (services : Services)
    (limit : option Z) (filter : option string) (species : option string)
  : list PipelineEvent * option (Js.Completion (list AnnotatedVariant)) :=
  let read := readVcfFile file (default 1000 limit) filter in
  let run :=
    Pipeline.batches fuel services (default "human" species) read.2 0 0 [] in
  ((Reading <$> read.1) ++ run.1, run.2).

(** ** The earlier revision of the helpers *)

Module Legacy.
(** [chunk] before it became a generator: the batches are pushed on an
    array that is returned at the end. *)
Fixpoint chunk_loop {A} (fuel : nat) (array : list A) (chunkSize : Z) (i : Z)
    (chunks : list (list A)) : option (list (list A)) :=
  match fuel with
  | O => None
  | S fuel' =>
      if i <? Z.of_nat (length array)
      then chunk_loop fuel' array chunkSize (i + chunkSize)
             (chunks ++ [Js.slice array i (i + chunkSize)])
      else Some chunks
  end.

Definition chunk {A} (fuel : nat) (array : list A) (chunkSize : Z)
  : option (list (list A)) :=
  chunk_loop fuel array chunkSize 0 [].

(** [parseVariant] without the guards: reading [replace] off a missing
    [CHROM], or [join] off a missing [ALT], throws; a missing [POS],
    [REF] or element 0 of [ID] is printed by [join] as the empty
    string. *)
Definition parseVariant (variant : VariantRecord) : Js.Completion string :=
  match CHROM variant, ALT variant with
  | Some chrom, Some alt =>
      Js.Normal
        (Js.join_opt " "
           [ Some (Js.replace "chr" "" chrom);
             Js.number_to_string <$> POS variant;
             match ID variant with
             | Some ids => ids !! 0%nat
             | None => Some "."
             end;
             REF variant;
             Some (Js.join "," alt);
             Some "." ])
  | _, _ => Js.Throw Js.TypeError
  end.
End Legacy.

(** * Specification vocabulary and sample inputs *)

(** ** Predicates of the specification *)

(** What a batch list must satisfy to be the batching of [array]. *)
Definition batching_of {A} (chunkSize : Z) (array : list A)
    (batches : list (list A)) : Prop :=
  concat batches = array
  ∧ (∀ k batch, batches !! k = Some batch → (S k < length batches)%nat →
       Z.of_nat (length batch) = chunkSize)
  ∧ (∀ batch, last batches = Some batch →
       1 ≤ Z.of_nat (length batch) ≤ chunkSize).

(** [k] rounds of a status request answered without results, each
    followed by the one-second sleep. *)
Definition idle_rounds (jobId : option string) (k : nat) : list ClientEvent :=
  concat (replicate k [Fetch (ProteinIds.status_url jobId) None; Sleep 1000]).

(** The reading of C3: whenever the variants accumulated over the
    reference sequences consumed so far have reached [limit], the next
    reference sequence is not read. *)
Definition stops_reading_at_limit (file : IndexedFile) (limit : Z)
    (filter : option string) : Prop :=
  ∀ consumed refName rest,
    refNames file = consumed ++ refName :: rest →
    limit ≤ Z.of_nat (length (Reader.loop file limit filter consumed).2) →
    GetLines refName ∉ (readVcfFile file limit filter).1.

(** A file with two reference sequences of one line each. *)
Definition two_contigs : IndexedFile :=
  {| refNames := ["1"; "2"];
     linesOf := λ refName,
       if decide (refName = "1") then ["1 100 . A T"]
       else if decide (refName = "2") then ["2 200 . C G"]
       else [];
     parseLine := λ line,
       {| CHROM := head (String.words line); POS := None; ID := None;
          REF := None; ALT := None |} |}.

(** A field that is neither missing nor the empty string. *)
Definition non_empty (field : option string) : Prop := Js.truthy field = true.

(** The high-impact predicate of the specification. *)
Definition is_high_impact (r : AnnotatedVariant) : Prop :=
  siftPrediction r = Some "deleterious"
  ∨ polyphenPrediction r = Some "probably_damaging".

(** The consequence of variant B in the end-to-end scenario; the fields
    the scenario leaves open are missing. *)
Definition consequence_B : TranscriptConsequence :=
  {| gene_id := Some "ENSG00000000001";
     swissprot := Some ["P12345.2"];
     amino_acids := Some "A/V";
     protein_start := Some 42;
     sift_prediction := Some "deleterious";
     sift_score := None;
     polyphen_prediction := None;
     polyphen_score := None |}.

(** [c] with other prediction labels. *)
Definition with_predictions (sift polyphen : option string)
    (c : TranscriptConsequence) : TranscriptConsequence :=
  {| gene_id := gene_id c; swissprot := swissprot c;
     amino_acids := amino_acids c; protein_start := protein_start c;
     sift_prediction := sift; sift_score := sift_score c;
     polyphen_prediction := polyphen; polyphen_score := polyphen_score c |}.

(** The three variants of the scenario. *)
Definition variant_A : ConsequencePrediction :=
  {| input := Some "1 100 . G C ."; transcript_consequences := None |}.
Definition variant_B : ConsequencePrediction :=
  {| input := Some "1 200 . C T .";
     transcript_consequences := Some [consequence_B] |}.
Definition variant_C : ConsequencePrediction :=
  {| input := Some "1 300 . C T .";
     transcript_consequences :=
       Some [with_predictions (Some "tolerated") (Some "benign") consequence_B] |}.

Definition scenario : list (option ConsequencePrediction) :=
  [Some variant_A; Some variant_B; Some variant_C].

(** A mapper that knows no structure, and one that knows one structure of
    [P12345]. *)
Definition no_structures : string → StructureMapping := λ _, ∅.
Definition one_structure : string → StructureMapping := λ _,
  {[ "P12345" := [ {| pdb_id := "1abc"; chain_id := "B";
                      coverage := 1; resolution := Some 2%Q |} ] ]}.

(** 5 January 2023; [getMonth] counts from 0. *)
Definition fifth_of_january : Date :=
  {| getFullYear := 2023; getMonth := 0; getDate := 5 |}.

(** The reading of C6: one call, whose argument lists each accession of
    the assembled records once. *)
Definition mapper_called_once_deduplicated (pdbe : string → StructureMapping)
    (date : Date) (data : list (option ConsequencePrediction)) : Prop :=
  ∃ ids,
    (processVariantConsequences pdbe date data).1 = [BestStructures ids]
    ∧ NoDup ids
    ∧ ∀ out, (processVariantConsequences pdbe date data).2 = Js.Normal out →
        ∀ id, id ∈ ids ↔ id ∈ uniprotId <$> out.

(** The reading of C1: the scenario yields one record, the one of B. *)
Definition scenario_yields_only_B (pdbe : string → StructureMapping)
    (date : Date) : Prop :=
  ∃ rb,
    (processVariantConsequences pdbe date scenario).2 = Js.Normal [rb]
    ∧ variant rb = input variant_B
    ∧ aminoAcidMutation rb = "A42V"
    ∧ non_empty (icn3dAlphafold rb)
    ∧ (is_Some (getBestStructures pdbe ["P12345"] !! "P12345") →
       non_empty (icn3dPdb rb)).

(** The reading of C8: no returned record is built from the consequence
    [c], whose amino-acid change is malformed. *)
Definition withholds_record (pdbe : string → StructureMapping) (date : Date)
    (data : list (option ConsequencePrediction)) (c : TranscriptConsequence)
  : Prop :=
  ∀ out r,
    (processVariantConsequences pdbe date data).2 = Js.Normal out →
    r ∈ out → consequence r ≠ c.

(** The mapping the Structure Mapper answers in the call on [data]. *)
Definition mapping_of (pdbe : string → StructureMapping)
    (data : list (option ConsequencePrediction)) : StructureMapping :=
  getBestStructures pdbe
    match Assembler.collect data with
    | Js.Normal pushed => uniprotId <$> pushed
    | Js.Throw _ => []
    end.

(** The three loops on [data] under a given mapping. *)
Definition assemble_under (bestStructures : StructureMapping) (date : Date)
    (data : list (option ConsequencePrediction))
  : Js.Completion (list AnnotatedVariant) :=
  pushed ← Assembler.collect data; Assembler.annotate bestStructures date pushed.

(** Every exception of the model is a [TypeError]: two aborted outcomes
    are equal. *)
Ltac same_throw :=
  repeat match goal with e : Js.Error |- _ => destruct e end; done.

(** A consequence with the amino-acid change "AV", and the element of a
    response that has it. *)
Definition malformed_consequence : TranscriptConsequence :=
  {| gene_id := None; swissprot := Some ["Q99999.1"];
     amino_acids := Some "AV"; protein_start := Some 7;
     sift_prediction := Some "deleterious"; sift_score := None;
     polyphen_prediction := None; polyphen_score := None |}.

Definition malformed_variant : ConsequencePrediction :=
  {| input := Some "1 250 . C T .";
     transcript_consequences := Some [malformed_consequence] |}.

(** A mapper that lists two candidates of equal coverage and resolution
    for [P12345]. *)
Definition two_candidates : string → StructureMapping := λ _,
  {[ "P12345" := [ {| pdb_id := "1abc"; chain_id := "B";
                      coverage := 1; resolution := Some 2%Q |};
                   {| pdb_id := "2xyz"; chain_id := "A";
                      coverage := 1; resolution := Some 2%Q |} ] ]}.

(** A service whose third status answer is the first with results, and
    one that never has any. *)
Definition ready_at_third : IdMapping string :=
  {| run_job := λ _, Some "job-1";
     status_results := λ _ n, if (n <? 2)%nat then None else Some "mapped" |}.
Definition never_ready : IdMapping string :=
  {| run_job := λ _, Some "job-1"; status_results := λ _ _, None |}.

(** ** Vocabulary of the further properties *)

(** All the lines the block index delivers, reference sequence after
    reference sequence. *)
Definition delivered_lines (file : IndexedFile) : list string :=
  concat (linesOf file <$> refNames file).

(** Whether the character [c] occurs in [s], and whether every character
    of [s] satisfies [P]. *)
Fixpoint has_char (c : ascii) (s : string) : bool :=
  match s with
  | "" => false
  | String a s' => bool_decide (a = c) || has_char c s'
  end.

Fixpoint every_char (P : ascii → bool) (s : string) : bool :=
  match s with
  | "" => true
  | String a s' => P a && every_char P s'
  end.

(** The characters [encodeURIComponent] can output, and those of a whole
    viewer link. *)
Definition url_safe (a : ascii) : bool :=
  Js.is_unreserved a || bool_decide (a = "%"%char).

Definition link_char (a : ascii) : bool :=
  url_safe a || bool_decide (a ∈ ["&"; "="; ","; ":"; "/"; "?"]%char).

(** The value of an upper-case hexadecimal digit. *)
Definition hex_value (a : ascii) : N :=
  let n := Ascii.N_of_ascii a in
  (if n <? 58 then n - 48 else n - 55)%N.

(** A prediction whose only consequence is eligible but has no
    [amino_acids] property. *)
Definition variant_without_amino_acids : ConsequencePrediction :=
  {| input := Some "1 400 . G A .";
     transcript_consequences :=
       Some [ {| gene_id := None; swissprot := Some ["O00001.1"];
                 amino_acids := None; protein_start := Some 3;
                 sift_prediction := Some "tolerated"; sift_score := None;
                 polyphen_prediction := None; polyphen_score := None |} ] |}.

(** What the second loop leaves in [pdbId] and [pdbStructures] for an
    accession, given the entry of the mapping. *)
Definition structure_of (entry : option (list StructureCandidate))
  : option string * option (list StructureCandidate) :=
  match entry with
  | Some (best :: rest) =>
      (Some (pdb_id best +:+ "_" +:+ chain_id best), Some (best :: rest))
  | _ => (None, None)
  end.

(** The request the driver sends for one batch, and what the assembler
    makes of the answer during the processing of batch [k]. *)
Definition batch_request (species : string) (variants : list VariantRecord)
  : PipelineEvent :=
  Request (Fetch (vep_url species)
             (Some (Json.stringify_variants (parseVariant <$> variants)))).

Definition batch_outcome (services : Services) (species : string) (k : nat)
    (variants : list VariantRecord)
  : list RemoteCall * Js.Completion (list AnnotatedVariant) :=
  processVariantConsequences (pdbe services) (clock services k)
    (getVariantConsequences (ensembl services) (parseVariant <$> variants) species).

(** The requests to the consequence service among the events. *)
Definition consequence_requests (trace : list PipelineEvent) : list PipelineEvent :=
  List.filter (λ e, match e with Request _ => true | _ => false end) trace.

(** A run over two variants in one batch, against services that answer
    the scenario. *)
Definition scenario_services : Services :=
  {| ensembl := λ _ _, scenario;
     pdbe := one_structure;
     clock := λ _, fifth_of_january |}.

(** A consequence service that answers one prediction to any request with
    at least one query. *)
Definition one_answer_services : Services :=
  {| ensembl := λ _ body,
       if decide (body = Json.stringify_variants []) then []
       else [Some variant_B];
     pdbe := one_structure;
     clock := λ _, fifth_of_january |}.

(** A consequence service whose answer makes the assembler throw. *)
Definition throwing_services : Services :=
  {| ensembl := λ _ _, [Some variant_without_amino_acids];
     pdbe := one_structure;
     clock := λ _, fifth_of_january |}.

(** An id-mapping service whose answer to the submission has no job id. *)
Definition no_job_id : IdMapping string :=
  {| run_job := λ _, None; status_results := λ _ _, None |}.

(** * Properties *)

(** ** The primitives on sample inputs *)

Example split_slash : Js.split "/"%char "A/V" = ["A"; "V"].
Proof. reflexivity. Qed.
Example split_dot : Js.split "."%char "P12345.10" = ["P12345"; "10"].
Proof. reflexivity. Qed.
Example replace_first : Js.replace "chr" "" "chrchr1" = "chr1".
Proof. reflexivity. Qed.
Example encode_sample :
  Js.encodeURIComponent "add track | chainid P1_A; x" = "add%20track%20%7C%20chainid%20P1_A%3B%20x".
Proof. reflexivity. Qed.
Example slice_sample : Js.slice [1;2;3;4;5] 3 7 = [4;5] ∧ Js.slice [1;2;3;4;5] (-2) 9 = [4;5].
Proof. split; reflexivity. Qed.
Example number_sample : Js.number_to_string 42 = "42" ∧ Js.number_to_string (-7) = "-7".
Proof. split; reflexivity. Qed.

(** ** Primitives *)

Lemma split_nonempty sep s : Js.split sep s ≠ [].
Proof.
  destruct s as [|a s]; simpl; [done|].
  case_decide; [done|]. by destruct (Js.split sep s).
Qed.

Lemma starts_with_app p s : Js.starts_with p (p +:+ s) = true.
Proof. induction p as [|a p IH]; simpl; [done|]. by rewrite decide_True. Qed.

Lemma drop_chars_app p s : Js.drop_chars (String.length p) (p +:+ s) = s.
Proof. induction p as [|a p IH]; simpl; done. Qed.

Lemma replace_unfold p r s :
  Js.replace p r s =
    if Js.starts_with p s then r +:+ Js.drop_chars (String.length p) s
    else match s with
         | "" => ""
         | String a s' => String a (Js.replace p r s')
         end.
Proof. by destruct s. Qed.

(** A leading occurrence of the pattern is the one [replace] removes. *)
Lemma replace_leading p s : Js.replace p "" (p +:+ s) = s.
Proof. by rewrite replace_unfold, starts_with_app, drop_chars_app. Qed.

Lemma includes_unfold p s :
  Js.includes p s =
    if Js.starts_with p s then true
    else match s with "" => false | String _ s' => Js.includes p s' end.
Proof. by destruct s. Qed.

(** A string without the pattern is left as it is. *)
Lemma replace_absent p r s : Js.includes p s = false → Js.replace p r s = s.
Proof.
  induction s as [|a s IH]; rewrite includes_unfold, replace_unfold;
    destruct (Js.starts_with p _); try done.
  intros Hrest. by rewrite IH.
Qed.

(** ** Query-line formatter *)

(** The formatted line always has the six fields, in this order. *)
Lemma parseVariant_fields v :
  parseVariant v =
    default "." (strip_chrom (CHROM v)) +:+ " " +:+
    default "." (Js.number_to_string <$> POS v) +:+ " " +:+
    default "." (first_id (ID v)) +:+ " " +:+
    default "." (REF v) +:+ " " +:+
    default "." (join_alt (ALT v)) +:+ " " +:+ ".".
Proof. reflexivity. Qed.

(** The worked example of the specification. *)
Lemma parseVariant_example :
  parseVariant
    {| CHROM := Some "chr1"; POS := Some 100; ID := None;
       REF := Some "A"; ALT := Some ["T"; "G"] |}
  = "1 100 . A T,G .".
Proof. reflexivity. Qed.

(** A name that starts with the prefix loses exactly that prefix. *)
Lemma strip_chrom_leading s : strip_chrom (Some ("chr" +:+ s)) = Some s.
Proof. reflexivity. Qed.

(** A name without any [chr] is kept. *)
Lemma strip_chrom_absent s :
  Js.includes "chr" s = false → strip_chrom (Some s) = Some s.
Proof.
  intros Habsent. unfold strip_chrom.
  destruct (Js.truthy (Some s)); [|done]. simpl. by rewrite replace_absent.
Qed.

(** A missing identifier, and an empty identifier list, print as a dot. *)
Lemma first_id_missing : default "." (first_id None) = "." ∧ default "." (first_id (Some [])) = ".".
Proof. done. Qed.

(** C9, at the failing input: a reference-sequence name that does not
    start with [chr] but contains it is not left alone; the formatter
    removes the inner occurrence, so the query line names another
    sequence. *)
Theorem parseVariant_strips_inner_chr :
  parseVariant
    {| CHROM := Some "scaffold_chr1"; POS := Some 100; ID := None;
       REF := Some "A"; ALT := Some ["T"; "G"] |}
  = "scaffold_1 100 . A T,G ."
  ∧ Js.starts_with "chr" "scaffold_chr1" = false.
Proof. split; reflexivity. Qed.

(** ** Batcher *)

Section chunk_properties.
Context {A : Type}.
Implicit Types (array batch : list A) (batches : list (list A)).

(** Inside the loop the slice is a window of [chunkSize] elements,
    cut short by the end of the array. *)
Lemma slice_window array (i chunkSize : Z) :
  0 ≤ i < Z.of_nat (length array) → 1 ≤ chunkSize →
  Js.slice array i (i + chunkSize)
  = take (Z.to_nat chunkSize) (drop (Z.to_nat i) array).
Proof.
  intros Hi Hsize. unfold Js.slice, Js.relative_index.
  rewrite !(proj2 (Z.ltb_ge _ _)) by lia.
  rewrite (Z.min_l i) by lia.
  destruct (Z.le_gt_cases (i + chunkSize) (Z.of_nat (length array))).
  - rewrite Z.min_l by lia. f_equal. lia.
  - rewrite Z.min_r by lia.
    rewrite !take_ge; [done| |]; rewrite length_drop; lia.
Qed.

(** More fuel does not change a finished run. *)
Lemma drain_more_fuel fuel fuel' array chunkSize i batches :
  Chunk.drain fuel array chunkSize i = Some batches → (fuel ≤ fuel')%nat →
  Chunk.drain fuel' array chunkSize i = Some batches.
Proof.
  revert fuel' i batches.
  induction fuel as [|fuel IH]; intros fuel' i batches Hrun Hle; [done|].
  destruct fuel' as [|fuel']; [lia|]. simpl in *.
  destruct (Chunk.next array chunkSize i) as [[batch i']|]; [|done].
  destruct (Chunk.drain fuel array chunkSize i') as [rest|] eqn:Hrest; [|done].
  by rewrite (IH fuel' i' rest Hrest) by lia.
Qed.

Lemma drain_batches fuel array chunkSize i :
  1 ≤ chunkSize → 0 ≤ i →
  (length array - Z.to_nat i < fuel)%nat →
  ∃ batches,
    Chunk.drain fuel array chunkSize i = Some batches
    ∧ batching_of chunkSize (drop (Z.to_nat i) array) batches.
Proof.
  intros Hsize. revert i.
  induction fuel as [|fuel IH]; intros i Hi Hfuel; [lia|].
  simpl. unfold Chunk.next.
  destruct (Z.ltb_spec i (Z.of_nat (length array))) as [Hlt|Hge].
  - destruct (IH (i + chunkSize)) as (rest & -> & Hcat & Hfull & Hlast); [lia..|].
    rewrite slice_window by lia.
    set (tail := drop (Z.to_nat i) array) in *.
    assert (Htail : drop (Z.to_nat (i + chunkSize)) array
                    = drop (Z.to_nat chunkSize) tail).
    { unfold tail. rewrite drop_drop. f_equal. lia. }
    rewrite Htail in Hcat.
    assert (Hlen : length tail = (length array - Z.to_nat i)%nat)
      by (unfold tail; apply length_drop).
    eexists. split; [done|]. split; [|split].
    + simpl. rewrite Hcat. apply take_drop.
    + intros [|k] batch Hk Hmore; simpl in *.
      * injection Hk as <-. rewrite length_take.
        destruct rest as [|next rest]; [simpl in Hmore; lia|].
        assert (length (drop (Z.to_nat chunkSize) tail) ≠ 0)%nat as Hne.
        { rewrite <- Hcat. simpl. rewrite length_app.
          destruct rest as [|next' rest].
          - specialize (Hlast next eq_refl). lia.
          - specialize (Hfull 0%nat next eq_refl). simpl in Hfull. lia. }
        rewrite length_drop in Hne. lia.
      * apply (Hfull k batch Hk). lia.
    + intros batch Hb. destruct rest as [|next rest].
      * injection Hb as <-. rewrite length_take. lia.
      * apply Hlast. by rewrite last_cons_cons in Hb.
  - exists []. split; [done|]. split; [|split]; [|done..].
    simpl. symmetry. apply drop_ge. lia.
Qed.
End chunk_properties.

(** C5. For a batch size of at least 1 the generator finishes (any fuel
    above the array length drains it), the batches concatenated in order
    give back the array, every batch but the last has exactly [chunkSize]
    elements, and the last has between 1 and [chunkSize]. *)
Theorem chunk_reassembles {A} (array : list A) (chunkSize : Z) :
  1 ≤ chunkSize →
  ∃ batches,
    (∀ fuel, (length array < fuel)%nat → chunk fuel array chunkSize = Some batches)
    ∧ concat batches = array
    ∧ (∀ k batch, batches !! k = Some batch → (S k < length batches)%nat →
         Z.of_nat (length batch) = chunkSize)
    ∧ (∀ batch, last batches = Some batch →
         1 ≤ Z.of_nat (length batch) ≤ chunkSize).
Proof.
  intros Hsize.
  destruct (drain_batches (S (length array)) array chunkSize 0)
    as (batches & Hrun & Hspec); [lia..|].
  exists batches. split; [|exact Hspec].
  intros fuel Hfuel. unfold chunk.
  apply (drain_more_fuel (S (length array))); [done|lia].
Qed.

Lemma chunk_reassembles_witness :
  ∃ batches,
    (∀ fuel, (5 < fuel)%nat → chunk fuel [1; 2; 3; 4; 5] 2 = Some batches)
    ∧ concat batches = [1; 2; 3; 4; 5]
    ∧ (∀ k batch, batches !! k = Some batch → (S k < length batches)%nat →
         Z.of_nat (length batch) = 2)
    ∧ (∀ batch, last batches = Some batch → 1 ≤ Z.of_nat (length batch) ≤ 2).
Proof. apply (chunk_reassembles [1; 2; 3; 4; 5] 2). lia. Defined.

Example chunk_sample : chunk 6 [1; 2; 3; 4; 5] 2 = Some [[1; 2]; [3; 4]; [5]].
Proof. reflexivity. Qed.

(** With a batch size of 0 the loop counter never advances: the generator
    yields empty batches for ever. *)
Lemma chunk_zero_never_finishes {A} (x : A) (array : list A) fuel :
  chunk fuel (x :: array) 0 = None.
Proof.
  unfold chunk. induction fuel as [|fuel IH]; [done|].
  cbn [Chunk.drain]. unfold Chunk.next.
  replace (0 <? Z.of_nat (length (x :: array))) with true
    by (symmetry; apply Z.ltb_lt; simpl; lia).
  rewrite Z.add_0_l. by rewrite IH.
Qed.

(** ** Indexed Variant Reader *)

Section reader_properties.
Context (file : IndexedFile) (limit : Z) (filter : option string).
Implicit Types (variants : list VariantRecord) (names : list string).

(** The callback adds at most one variant, and none at the limit. *)
Lemma on_line_bound variants line :
  Z.of_nat (length variants) ≤ limit →
  Z.of_nat (length (Reader.on_line file limit filter variants line)) ≤ limit.
Proof.
  intros Hle. unfold Reader.on_line.
  destruct (Z.ltb_spec (Z.of_nat (length variants)) limit); simpl; [|done].
  destruct (Reader.passes filter line); [|done].
  rewrite length_app. simpl. lia.
Qed.

Lemma on_line_full variants line :
  limit ≤ Z.of_nat (length variants) →
  Reader.on_line file limit filter variants line = variants.
Proof.
  intros Hle. unfold Reader.on_line.
  by rewrite (proj2 (Z.ltb_ge _ _) Hle).
Qed.

Lemma lines_bound lines variants :
  Z.of_nat (length variants) ≤ limit →
  Z.of_nat (length (foldl (Reader.on_line file limit filter) variants lines)) ≤ limit.
Proof.
  revert variants. induction lines as [|line lines IH]; intros variants Hle; [done|].
  simpl. apply IH. by apply on_line_bound.
Qed.

Lemma lines_full lines variants :
  limit ≤ Z.of_nat (length variants) →
  foldl (Reader.on_line file limit filter) variants lines = variants.
Proof.
  induction lines as [|line lines IH]; intros Hle; [done|].
  simpl. rewrite on_line_full by done. by apply IH.
Qed.

(** The loop over reference sequences, from any state. *)
Lemma refs_trace names st :
  (foldl (Reader.on_ref file limit filter) st names).1
  = st.1 ++ (GetLines <$> names).
Proof.
  revert st. induction names as [|name names IH]; intros st; simpl.
  - by rewrite app_nil_r.
  - rewrite IH. simpl. by rewrite <- app_assoc.
Qed.

Lemma refs_bound names st :
  Z.of_nat (length st.2) ≤ limit →
  Z.of_nat (length (foldl (Reader.on_ref file limit filter) st names).2) ≤ limit.
Proof.
  revert st. induction names as [|name names IH]; intros st Hle; [done|].
  simpl. apply IH. simpl. by apply lines_bound.
Qed.

Lemma refs_full names st :
  limit ≤ Z.of_nat (length st.2) →
  (foldl (Reader.on_ref file limit filter) st names).2 = st.2.
Proof.
  revert st. induction names as [|name names IH]; intros st Hle; [done|].
  simpl. rewrite IH; simpl; by rewrite lines_full.
Qed.
End reader_properties.

(** C3 fails: with limit 1 the first reference sequence fills the output,
    and the second one is read all the same. *)
Lemma readVcfFile_reads_past_limit :
  ¬ stops_reading_at_limit two_contigs 1 None.
Proof.
  intros Hstop.
  apply (Hstop ["1"] "2" []); [reflexivity|vm_compute; discriminate|].
  vm_compute. apply list_elem_of_In. right. by left.
Qed.

(** C3, amended. Every reference sequence of the index is read, once each
    and in index order, whatever the limit and the filter; once the
    variants accumulated over a prefix of the reference sequences have
    reached [limit], the reads that follow add nothing to the output. *)
Theorem readVcfFile_reads_every_reference file limit filter :
  (readVcfFile file limit filter).1 = GetLines <$> refNames file
  ∧ ∀ consumed rest,
      refNames file = consumed ++ rest →
      limit ≤ Z.of_nat (length (Reader.loop file limit filter consumed).2) →
      (readVcfFile file limit filter).2 = (Reader.loop file limit filter consumed).2.
Proof.
  split.
  - unfold readVcfFile, Reader.loop. by rewrite refs_trace.
  - intros consumed rest Hnames Hfull.
    unfold readVcfFile, Reader.loop in *. rewrite Hnames, foldl_app.
    by apply refs_full.
Qed.

Lemma readVcfFile_reads_every_reference_witness :
  (readVcfFile two_contigs 1 None).1 = [GetLines "1"; GetLines "2"]
  ∧ (readVcfFile two_contigs 1 None).2 = (Reader.loop two_contigs 1 None ["1"]).2.
Proof.
  split.
  - exact (proj1 (readVcfFile_reads_every_reference two_contigs 1 None)).
  - apply (proj2 (readVcfFile_reads_every_reference two_contigs 1 None) ["1"] ["2"]).
    + reflexivity.
    + vm_compute. discriminate.
Defined.

(** C4. With a non-negative limit the reader returns at most [limit]
    variants. *)
Theorem readVcfFile_at_most_limit file limit filter :
  0 ≤ limit →
  Z.of_nat (length (readVcfFile file limit filter).2) ≤ limit.
Proof. intros Hlimit. unfold readVcfFile, Reader.loop. by apply refs_bound. Qed.

Lemma readVcfFile_at_most_limit_witness :
  Z.of_nat (length (readVcfFile two_contigs 1 None).2) ≤ 1.
Proof. apply (readVcfFile_at_most_limit two_contigs 1 None). lia. Defined.

Example readVcfFile_sample :
  (CHROM <$> (readVcfFile two_contigs 5 (Some "200")).2) = [Some "2"].
Proof. reflexivity. Qed.

(** ** Record Assembler *)

Section for_each_properties.
Context {A B : Type} (f : A → Js.Completion B).

Lemma for_each_cons x l :
  Js.for_each f (x :: l)
  = y ← f x; ys ← Js.for_each f l; mret (y :: ys).
Proof. reflexivity. Qed.

(** A loop that completes has run its body normally on every element. *)
Lemma for_each_normal l out :
  Js.for_each f l = Js.Normal out ↔ Forall2 (λ x y, f x = Js.Normal y) l out.
Proof.
  revert out. induction l as [|x l IH]; intros out; simpl.
  - split.
    + intros [= <-]. constructor.
    + by intros ->%Forall2_nil_inv_l.
  - split.
    + destruct (f x) as [y|] eqn:Hx; simpl; [|done].
      destruct (Js.for_each f l) as [ys|] eqn:Hl; simpl; [|done].
      intros [= <-]. constructor; [done|]. by apply IH.
    + intros (y & ys & Hx & Hl & ->)%Forall2_cons_inv_l.
      rewrite Hx. simpl. apply IH in Hl. by rewrite Hl.
Qed.

Lemma for_each_app l1 l2 :
  Js.for_each f (l1 ++ l2)
  = xs ← Js.for_each f l1; ys ← Js.for_each f l2; mret (xs ++ ys).
Proof.
  induction l1 as [|x l1 IH]; simpl.
  - by destruct (Js.for_each f l2).
  - destruct (f x) as [y|]; simpl; [|done]. rewrite IH.
    destruct (Js.for_each f l1); simpl; [|done].
    by destruct (Js.for_each f l2).
Qed.
End for_each_properties.

Lemma high_impact_spec r : Assembler.high_impact r = true ↔ is_high_impact r.
Proof.
  unfold Assembler.high_impact, is_high_impact.
  rewrite orb_true_iff, !bool_decide_eq_true. done.
Qed.

(** Both URL builders return the viewer address followed by a query:
    never the empty string. *)
Lemma getIcn3dAlphafoldUrl_non_empty date r :
  non_empty (Some (getIcn3dAlphafoldUrl date r)).
Proof. reflexivity. Qed.

Lemma getIcn3dPdbUrl_non_empty date r :
  non_empty (Some (getIcn3dPdbUrl date r)).
Proof. reflexivity. Qed.

Lemma join_underscore_non_empty a b : non_empty (Some (Js.join "_" [a; b])).
Proof. by destruct a. Qed.

Section assembler_properties.
Context (bestStructures : StructureMapping) (date : Date).
Implicit Types (r : AnnotatedVariant) (c : TranscriptConsequence).

(** What the first loop pushes for an element it does not skip. *)
Lemma first_pass_pushed result r :
  Assembler.first_pass result = Js.Normal (Some r) →
  ∃ c, Assembler.select result = Some c
    ∧ consequence r = c
    ∧ variant r = result ≫= input
    ∧ Assembler.accession c = Js.Normal (uniprotId r)
    ∧ Assembler.amino_acid_parts c = Js.Normal (aminoAcids r)
    ∧ aminoAcidMutation r
      = Js.join_opt "" [ aminoAcids r !! 0%nat;
                         Js.number_to_string <$> protein_start c;
                         aminoAcids r !! 1%nat ]
    ∧ siftPrediction r = sift_prediction c
    ∧ polyphenPrediction r = polyphen_prediction c
    ∧ pdbId r = None ∧ pdbStructures r = None
    ∧ icn3dPdb r = None ∧ icn3dAlphafold r = None.
Proof.
  unfold Assembler.first_pass.
  destruct (Assembler.select result) as [c|]; [|done].
  destruct (Assembler.accession c) as [id|] eqn:Hid; simpl; [|done].
  destruct (Assembler.amino_acid_parts c) as [parts|] eqn:Hparts; simpl; [|done].
  intros [= <-]. exists c. simpl. done.
Qed.

(** The second loop touches only [pdbId] and [pdbStructures]. *)
Lemma attach_fields r r' :
  Assembler.attach bestStructures r = Js.Normal r' →
  variant r' = variant r ∧ uniprotId r' = uniprotId r
  ∧ aminoAcids r' = aminoAcids r ∧ aminoAcidMutation r' = aminoAcidMutation r
  ∧ siftPrediction r' = siftPrediction r
  ∧ polyphenPrediction r' = polyphenPrediction r
  ∧ icn3dPdb r' = icn3dPdb r ∧ icn3dAlphafold r' = icn3dAlphafold r
  ∧ consequence r' = consequence r.
Proof.
  unfold Assembler.attach.
  destruct (get_property bestStructures (uniprotId r)) as [[|best rest]| |];
    intros [= <-]; done.
Qed.

(** The structure it attaches is the head of the accession's list. *)
Lemma attach_structure r r' :
  Assembler.attach bestStructures r = Js.Normal r' →
  match bestStructures !! uniprotId r with
  | Some structures =>
      ∃ best, structures !! 0%nat = Some best
        ∧ pdbId r' = Some (pdb_id best +:+ "_" +:+ chain_id best)
        ∧ pdbStructures r' = Some structures
  | None => pdbId r' = pdbId r ∧ pdbStructures r' = pdbStructures r
  end.
Proof.
  unfold Assembler.attach, get_property.
  destruct (bestStructures !! uniprotId r) as [[|best rest]|].
  - done.
  - intros [= <-]. by exists best.
  - case_bool_decide; [done|]. by intros [= <-].
Qed.

(** The third loop touches only the two command fields. *)
Lemma visualize_fields r :
  let r' := Assembler.visualize date r in
  variant r' = variant r ∧ uniprotId r' = uniprotId r
  ∧ pdbId r' = pdbId r ∧ pdbStructures r' = pdbStructures r
  ∧ aminoAcids r' = aminoAcids r ∧ aminoAcidMutation r' = aminoAcidMutation r
  ∧ siftPrediction r' = siftPrediction r
  ∧ polyphenPrediction r' = polyphenPrediction r
  ∧ consequence r' = consequence r.
Proof.
  unfold Assembler.visualize.
  destruct (Assembler.high_impact r); simpl; [|done].
  destruct (Js.truthy (pdbId r)); done.
Qed.

(** On a record whose command fields are still [null], the third loop
    fills the predicted-structure command exactly for high-impact
    records, and the resolved-structure command exactly for high-impact
    records with a structure identifier. *)
Lemma visualize_commands r :
  icn3dPdb r = None → icn3dAlphafold r = None →
  let r' := Assembler.visualize date r in
  (non_empty (icn3dAlphafold r') ↔ is_high_impact r)
  ∧ (non_empty (icn3dPdb r') ↔ is_high_impact r ∧ non_empty (pdbId r))
  ∧ (¬ is_high_impact r → icn3dAlphafold r' = None ∧ icn3dPdb r' = None).
Proof.
  intros Hpdb Haf r'. subst r'.
  pose proof (high_impact_spec r) as Hspec.
  unfold Assembler.visualize, non_empty.
  destruct (Assembler.high_impact r); simpl.
  - destruct (Js.truthy (pdbId r)) eqn:Hid; simpl; rewrite ?Hpdb; simpl;
      intuition done.
  - rewrite Hpdb, Haf. simpl. intuition done.
Qed.
End assembler_properties.

(** The records of a call that completes: each comes from a record the
    first loop pushed, through the second and the third loop, under the
    one mapping the Structure Mapper returned for the batch. *)
Lemma processVariantConsequences_records pdbe date data out :
  (processVariantConsequences pdbe date data).2 = Js.Normal out →
  ∃ pushed,
    Assembler.collect data = Js.Normal pushed
    ∧ (processVariantConsequences pdbe date data).1
      = [BestStructures (uniprotId <$> pushed)]
    ∧ Forall2
        (λ r0 r, ∃ r1,
           Assembler.attach (getBestStructures pdbe (uniprotId <$> pushed)) r0
           = Js.Normal r1
           ∧ r = Assembler.visualize date r1)
        pushed out.
Proof.
  unfold processVariantConsequences.
  destruct (Assembler.collect data) as [pushed|]; simpl; [|done].
  intros Hout. exists pushed. split; [done|]. split; [done|].
  unfold Assembler.annotate in Hout.
  destruct (Js.for_each _ pushed) as [attached|] eqn:Hattached; [|done].
  simpl in Hout. injection Hout as <-.
  apply for_each_normal in Hattached.
  apply Forall2_fmap_r.
  eapply Forall2_impl; [exact Hattached|]. naive_solver.
Qed.

(** The first loop pushes only records made by its body. *)
Lemma collect_pushed data pushed r :
  Assembler.collect data = Js.Normal pushed → r ∈ pushed →
  ∃ result, result ∈ data ∧ Assembler.first_pass result = Js.Normal (Some r).
Proof.
  unfold Assembler.collect.
  destruct (Js.for_each _ data) as [made|] eqn:Hmade; [|done].
  simpl. intros [= <-] Hin.
  apply list_elem_of_omap in Hin as (made_r & Hin & Hsome).
  simpl in Hsome. subst made_r.
  apply for_each_normal in Hmade.
  apply list_elem_of_lookup in Hin as [k Hk].
  destruct (Forall2_lookup_r _ _ _ _ _ Hmade Hk) as (result & Hresult & Hbody).
  exists result. split; [|done]. by eapply list_elem_of_lookup_2.
Qed.

(** *** The scenario, computed *)

Example scenario_alphafold_url :
  match (processVariantConsequences no_structures fifth_of_january
           [Some variant_B]).2 with
  | Js.Normal [r] => icn3dAlphafold r
  | _ => None
  end
  = Some
      ("https://www.ncbi.nlm.nih.gov/Structure/icn3d/full.html?afid=P12345&date=202315&v=3.12.7&command=view%20annotations%3B%20set%20annotation%20cdd%3B%20set%20view%20detailed%20view%3B%20set%20thickness%20%7C%20stickrad%200.2%3B%20add%20track%20%7C%20chainid%20P12345_A%20%7C%20title%20SIFT_predict%20%7C%20text%2042%20V%3B%20add%20track%20%7C%20chainid%20P12345_A%20%7C%20title%20Polyphen_predict%20%7C%20text%2042%20V%3B%20scap%20interaction%20P12345_A_42_V").
Proof. vm_compute. reflexivity. Qed.

(** *** C2 *)

(** C2 fails: a high-impact record whose accession has no structure in
    the mapping gets the predicted-structure command only; its [icn3dPdb]
    stays empty. *)
Lemma high_impact_without_pdb_command :
  ¬ (∀ out r,
       (processVariantConsequences no_structures fifth_of_january [Some variant_B]).2
       = Js.Normal out →
       r ∈ out →
       (non_empty (icn3dAlphafold r) ∧ non_empty (icn3dPdb r) ↔ is_high_impact r)).
Proof.
  intros Hclaim.
  destruct (processVariantConsequences no_structures fifth_of_january [Some variant_B]).2
    as [out|] eqn:Hout; [|by vm_compute in Hout].
  vm_compute in Hout. injection Hout as Hout.
  specialize (Hclaim out).
  rewrite <- Hout in Hclaim.
  specialize (Hclaim _ eq_refl (list_elem_of_here _ _)).
  destruct Hclaim as [_ Hback].
  destruct Hback as [_ Hpdb]; [by left|]. by vm_compute in Hpdb.
Qed.

(** A record of a completed call, traced back through the three loops. *)
Lemma record_history pdbe date data out r :
  (processVariantConsequences pdbe date data).2 = Js.Normal out → r ∈ out →
  ∃ pushed result r0 r1,
    Assembler.collect data = Js.Normal pushed
    ∧ result ∈ data
    ∧ Assembler.first_pass result = Js.Normal (Some r0)
    ∧ Assembler.attach (getBestStructures pdbe (uniprotId <$> pushed)) r0
      = Js.Normal r1
    ∧ r = Assembler.visualize date r1.
Proof.
  intros Hout Hin.
  destruct (processVariantConsequences_records _ _ _ _ Hout)
    as (pushed & Hpushed & _ & Hall).
  apply list_elem_of_lookup in Hin as [k Hk].
  destruct (Forall2_lookup_r _ _ _ _ _ Hall Hk) as (r0 & Hr0 & r1 & Hr1 & ->).
  apply list_elem_of_lookup_2 in Hr0.
  destruct (collect_pushed _ _ _ Hpushed Hr0) as (result & Hres & Hfirst).
  by exists pushed, result, r0, r1.
Qed.

(** C2, amended. For every record of a completed call: the
    predicted-structure command [icn3dAlphafold] is non-empty exactly for
    high-impact records; the resolved-structure command [icn3dPdb] is
    non-empty exactly for high-impact records whose accession has an entry
    in the structure mapping (equivalently, whose [pdbId] is set); records
    that are not high-impact have both fields empty. *)
Theorem commands_follow_high_impact pdbe date data ids out r :
  processVariantConsequences pdbe date data = ([BestStructures ids], Js.Normal out) →
  r ∈ out →
  (non_empty (icn3dAlphafold r) ↔ is_high_impact r)
  ∧ (non_empty (icn3dPdb r)
     ↔ is_high_impact r ∧ is_Some (getBestStructures pdbe ids !! uniprotId r))
  ∧ (non_empty (pdbId r) ↔ is_Some (getBestStructures pdbe ids !! uniprotId r))
  ∧ (¬ is_high_impact r → icn3dAlphafold r = None ∧ icn3dPdb r = None).
Proof.
  intros Hrun Hin.
  assert (Hout : (processVariantConsequences pdbe date data).2 = Js.Normal out)
    by (by rewrite Hrun).
  destruct (record_history _ _ _ _ _ Hout Hin)
    as (pushed & result & r0 & r1 & Hpushed & _ & Hfirst & Hattach & ->).
  assert (ids = uniprotId <$> pushed) as ->.
  { unfold processVariantConsequences in Hrun. rewrite Hpushed in Hrun.
    congruence. }
  clear Hrun.
  set (bs := getBestStructures pdbe (uniprotId <$> pushed)) in *.
  destruct (first_pass_pushed _ _ Hfirst)
    as (c & _ & _ & _ & _ & _ & _ & _ & _ & Hid0 & _ & Hpdb0 & Haf0).
  destruct (attach_fields bs _ _ Hattach)
    as (_ & Huid & _ & _ & Hsift & Hpoly & Hpdb1 & Haf1 & _).
  pose proof (attach_structure bs _ _ Hattach) as Hstruct.
  destruct (visualize_fields date r1)
    as (_ & Huid' & Hid' & _ & _ & _ & Hsift' & Hpoly' & _).
  destruct (visualize_commands date r1) as (Haf & Hpdb & Hnone);
    [congruence..|].
  assert (Himpact : is_high_impact (Assembler.visualize date r1) ↔ is_high_impact r1).
  { unfold is_high_impact. by rewrite Hsift', Hpoly'. }
  assert (Hmapped : non_empty (pdbId r1) ↔ is_Some (bs !! uniprotId r1)).
  { rewrite Huid. destruct (bs !! uniprotId r0) as [structures|].
    - destruct Hstruct as (best & _ & -> & _).
      split; [by eexists|]. intros _.
      apply (join_underscore_non_empty (pdb_id best) (chain_id best)).
    - destruct Hstruct as [-> _]. rewrite Hid0.
      split; [done|]. by intros [? ?]. }
  rewrite Himpact, Huid', Hid'. rewrite <- Hmapped. done.
Qed.

Lemma commands_follow_high_impact_witness :
  ∃ r,
    (non_empty (icn3dAlphafold r) ↔ is_high_impact r)
    ∧ (non_empty (icn3dPdb r)
       ↔ is_high_impact r
         ∧ is_Some (getBestStructures one_structure ["P12345"; "P12345"] !! uniprotId r))
    ∧ (non_empty (pdbId r)
       ↔ is_Some (getBestStructures one_structure ["P12345"; "P12345"] !! uniprotId r))
    ∧ (¬ is_high_impact r → icn3dAlphafold r = None ∧ icn3dPdb r = None).
Proof.
  eexists.
  eapply (commands_follow_high_impact one_structure fifth_of_january scenario).
  - vm_compute. reflexivity.
  - apply list_elem_of_here.
Defined.

(** *** C7 *)

(** C7. In a completed call, a record whose accession has an entry in the
    mapping returned by the Structure Mapper carries that entry's whole
    candidate list, and its structure identifier is made of the candidate
    at index 0: structure id, underscore, chain id. *)
Theorem selected_structure_is_first pdbe date data ids out r structures :
  processVariantConsequences pdbe date data = ([BestStructures ids], Js.Normal out) →
  r ∈ out →
  getBestStructures pdbe ids !! uniprotId r = Some structures →
  ∃ best,
    structures !! 0%nat = Some best
    ∧ pdbId r = Some (pdb_id best +:+ "_" +:+ chain_id best)
    ∧ pdbStructures r = Some structures.
Proof.
  intros Hrun Hin Hmapped.
  assert (Hout : (processVariantConsequences pdbe date data).2 = Js.Normal out)
    by (by rewrite Hrun).
  destruct (record_history _ _ _ _ _ Hout Hin)
    as (pushed & result & r0 & r1 & Hpushed & _ & Hfirst & Hattach & ->).
  assert (ids = uniprotId <$> pushed) as ->.
  { unfold processVariantConsequences in Hrun. rewrite Hpushed in Hrun.
    congruence. }
  destruct (visualize_fields date r1) as (_ & Huid & -> & -> & _).
  rewrite Huid in Hmapped.
  destruct (attach_fields _ _ _ Hattach) as (_ & Huid1 & _).
  rewrite Huid1 in Hmapped.
  pose proof (attach_structure _ _ _ Hattach) as Hstruct.
  rewrite Hmapped in Hstruct. exact Hstruct.
Qed.

Lemma selected_structure_is_first_witness :
  ∃ r best second,
    (processVariantConsequences two_candidates fifth_of_january [Some variant_B]).2
    = Js.Normal [r]
    ∧ pdb_id best = "1abc" ∧ chain_id best = "B"
    ∧ pdb_id second = "2xyz"
    ∧ pdbId r = Some (pdb_id best +:+ "_" +:+ chain_id best)
    ∧ pdbStructures r = Some [best; second].
Proof.
  edestruct (selected_structure_is_first two_candidates fifth_of_january
               [Some variant_B]) as (best & Hbest & Hid & Hall).
  - vm_compute. reflexivity.
  - apply list_elem_of_here.
  - vm_compute. reflexivity.
  - injection Hbest as <-.
    eexists _, {| pdb_id := "1abc"; chain_id := "B";
                  coverage := 1; resolution := Some 2%Q |},
               {| pdb_id := "2xyz"; chain_id := "A";
                  coverage := 1; resolution := Some 2%Q |}.
    split; [vm_compute; reflexivity|].
    split; [reflexivity|]. split; [reflexivity|]. split; [reflexivity|].
    split; [exact Hid|exact Hall].
Defined.

(** *** C6 *)

(** C6 fails: variants B and C of the scenario share the accession
    [P12345], and the mapper is given it twice. *)
Lemma mapper_given_duplicates :
  (processVariantConsequences no_structures fifth_of_january scenario).1
  = [BestStructures ["P12345"; "P12345"]]
  ∧ ¬ mapper_called_once_deduplicated no_structures fifth_of_january scenario.
Proof.
  split; [reflexivity|].
  intros (ids & Hcall & Hnodup & _).
  vm_compute in Hcall. injection Hcall as <-.
  apply NoDup_cons in Hnodup as [Hnotin _].
  apply Hnotin, list_elem_of_here.
Qed.

Lemma annotate_accessions bestStructures date pushed out :
  Assembler.annotate bestStructures date pushed = Js.Normal out →
  uniprotId <$> out = uniprotId <$> pushed.
Proof.
  unfold Assembler.annotate.
  destruct (Js.for_each _ pushed) as [attached|] eqn:Hattached; [|done].
  simpl. intros [= <-]. apply for_each_normal in Hattached.
  induction Hattached as [|r0 r1 pushed attached Hattach _ IH]; [done|].
  rewrite !fmap_cons, IH. f_equal.
  destruct (visualize_fields date r1) as (_ & -> & _).
  by destruct (attach_fields _ _ _ Hattach) as (_ & -> & _).
Qed.

(** C6, amended. When the first loop completes, the Structure Mapper is
    called exactly once for the whole batch, and its argument is the list
    of the accessions of the assembled records, in record order, one
    entry per record: an accession shared by several records is repeated.
    When the first loop throws, the mapper is not called. In a call that
    completes, the argument is the accession list of the returned
    records. *)
Theorem mapper_called_once_per_batch pdbe date data :
  (processVariantConsequences pdbe date data).1
  = match Assembler.collect data with
    | Js.Normal pushed => [BestStructures (uniprotId <$> pushed)]
    | Js.Throw _ => []
    end
  ∧ ∀ out,
      (processVariantConsequences pdbe date data).2 = Js.Normal out →
      (processVariantConsequences pdbe date data).1
      = [BestStructures (uniprotId <$> out)].
Proof.
  unfold processVariantConsequences.
  destruct (Assembler.collect data) as [pushed|]; simpl; [|done].
  split; [done|]. intros out Hout.
  by rewrite (annotate_accessions _ _ _ _ Hout).
Qed.

Lemma mapper_called_once_per_batch_witness :
  (processVariantConsequences one_structure fifth_of_january scenario).1
  = [BestStructures ["P12345"; "P12345"]].
Proof.
  destruct (processVariantConsequences one_structure fifth_of_january scenario).2
    as [out|] eqn:Hout; [|by vm_compute in Hout].
  rewrite (proj2 (mapper_called_once_per_batch one_structure fifth_of_january scenario)
             out Hout).
  vm_compute in Hout. injection Hout as <-. reflexivity.
Defined.

(** *** C1 *)

(** C1 fails: variant C carries two predictions and an accession, so it
    is eligible, and the output has a second record, the one of C. *)
Lemma scenario_also_yields_C :
  ¬ scenario_yields_only_B no_structures fifth_of_january
  ∧ ¬ scenario_yields_only_B one_structure fifth_of_january
  ∧ (∃ rb rc,
       (processVariantConsequences one_structure fifth_of_january scenario).2
       = Js.Normal [rb; rc]
       ∧ variant rc = input variant_C).
Proof.
  split; [|split].
  - intros (rb & Hout & _). by vm_compute in Hout.
  - intros (rb & Hout & _). by vm_compute in Hout.
  - eexists _, _. split; [vm_compute; reflexivity|reflexivity].
Qed.

Lemma get_property_ordinary bestStructures key :
  key ∉ object_prototype_keys →
  get_property bestStructures key
  = match bestStructures !! key with
    | Some structures => Own structures
    | None => Undefined
    end.
Proof.
  intros Hkey. unfold get_property.
  destruct (bestStructures !! key); [done|]. by rewrite bool_decide_eq_false_2.
Qed.

Lemma P12345_ordinary : "P12345" ∉ object_prototype_keys.
Proof. by apply (bool_decide_unpack _). Qed.

(** C1, amended. For any batch of the scenario's shape (A without
    transcript consequences; B with amino_acids "A/V", protein_start 42,
    sift_prediction "deleterious", swissprot ["P12345.2"]; C as B but with
    sift_prediction "tolerated" and polyphen_prediction "benign"), and a
    structure mapping in which [P12345] is absent or has at least one
    candidate, the assembler returns exactly two records, B's then C's,
    and none for A. B's record has aminoAcidMutation "A42V", a non-empty
    [icn3dAlphafold], and a non-empty [icn3dPdb] when [P12345] is in the
    mapping; C's record has aminoAcidMutation "A42V" and both command
    fields empty. *)
Theorem scenario_yields_B_and_C pdbe date
    (a : ConsequencePrediction) (b : TranscriptConsequence)
    (inputB inputC : option string) :
  transcript_consequences a = None ∨ transcript_consequences a = Some [] →
  amino_acids b = Some "A/V" →
  protein_start b = Some 42 →
  sift_prediction b = Some "deleterious" →
  swissprot b = Some ["P12345.2"] →
  getBestStructures pdbe ["P12345"; "P12345"] !! "P12345" ≠ Some [] →
  ∃ rb rc,
    processVariantConsequences pdbe date
      [ Some a;
        Some {| input := inputB; transcript_consequences := Some [b] |};
        Some {| input := inputC;
                transcript_consequences :=
                  Some [with_predictions (Some "tolerated") (Some "benign") b] |} ]
    = ([BestStructures ["P12345"; "P12345"]], Js.Normal [rb; rc])
    ∧ variant rb = inputB
    ∧ aminoAcidMutation rb = "A42V"
    ∧ non_empty (icn3dAlphafold rb)
    ∧ (is_Some (getBestStructures pdbe ["P12345"; "P12345"] !! "P12345") →
       non_empty (icn3dPdb rb))
    ∧ variant rc = inputC
    ∧ aminoAcidMutation rc = "A42V"
    ∧ icn3dAlphafold rc = None
    ∧ icn3dPdb rc = None.
Proof.
  intros Ha Hamino Hstart Hsift Hswiss Hmapping.
  set (bs := getBestStructures pdbe ["P12345"; "P12345"]) in *.
  set (data := [Some a; _; _]).
  assert (∃ rb0 rc0,
    Assembler.collect data = Js.Normal [rb0; rc0]
    ∧ (variant rb0 = inputB ∧ uniprotId rb0 = "P12345"
       ∧ aminoAcidMutation rb0 = "A42V"
       ∧ siftPrediction rb0 = Some "deleterious"
       ∧ icn3dPdb rb0 = None ∧ icn3dAlphafold rb0 = None)
    ∧ (variant rc0 = inputC ∧ uniprotId rc0 = "P12345"
       ∧ aminoAcidMutation rc0 = "A42V"
       ∧ siftPrediction rc0 = Some "tolerated"
       ∧ polyphenPrediction rc0 = Some "benign"
       ∧ icn3dPdb rc0 = None ∧ icn3dAlphafold rc0 = None))
    as (rb0 & rc0 & Hcollect & Hb0 & Hc0).
  { subst data. destruct a as [ia ta], b as [g sw aa ps sp ss pp pps].
    simpl in *. subst sw aa ps sp.
    eexists _, _. split.
    - destruct Ha as [-> | ->]; reflexivity.
    - split; repeat split. }
  destruct Hb0 as (Hvb & Hub & Hmb & Hsb & Hpb & Hab).
  destruct Hc0 as (Hvc & Huc & Hmc & Hsc & Hpc & Hpdbc & Hafc).
  assert (∃ rb1 rc1,
    Assembler.attach bs rb0 = Js.Normal rb1
    ∧ Assembler.attach bs rc0 = Js.Normal rc1
    ∧ (is_Some (bs !! "P12345") → non_empty (pdbId rb1)))
    as (rb1 & rc1 & Hattb & Hattc & Hidb).
  { unfold Assembler.attach. rewrite Hub, Huc.
    rewrite (get_property_ordinary _ _ P12345_ordinary).
    destruct (bs !! "P12345") as [[|best rest]|]; [done| |].
    - eexists _, _. split; [done|]. split; [done|]. intros _.
      apply (join_underscore_non_empty (pdb_id best) (chain_id best)).
    - eexists _, _. split; [done|]. split; [done|]. by intros [? ?]. }
  destruct (attach_fields _ _ _ Hattb)
    as (Hvb1 & _ & _ & Hmb1 & Hsb1 & _ & Hpb1 & Hab1 & _).
  destruct (attach_fields _ _ _ Hattc)
    as (Hvc1 & _ & _ & Hmc1 & Hsc1 & Hpc1 & Hpdbc1 & Hafc1 & _).
  exists (Assembler.visualize date rb1), (Assembler.visualize date rc1).
  destruct (visualize_fields date rb1) as (-> & _ & _ & _ & _ & -> & _).
  destruct (visualize_fields date rc1) as (-> & _ & _ & _ & _ & -> & _).
  destruct (visualize_commands date rb1) as (Hafb & Hpdbb & _); [congruence..|].
  destruct (visualize_commands date rc1) as (_ & _ & Hnonec); [congruence..|].
  assert (Hhigh : is_high_impact rb1) by (left; congruence).
  assert (Hlow : ¬ is_high_impact rc1).
  { unfold is_high_impact. rewrite Hsc1, Hsc, Hpc1, Hpc. by intros [|]. }
  split.
  { unfold processVariantConsequences. rewrite Hcollect.
    change (uniprotId <$> [rb0; rc0]) with [uniprotId rb0; uniprotId rc0].
    rewrite Hub, Huc. fold bs.
    unfold Assembler.annotate. rewrite !for_each_cons, Hattb, Hattc.
    reflexivity. }
  split; [congruence|]. split; [congruence|].
  split; [by apply Hafb|]. split; [intros Hin; apply Hpdbb; auto|].
  split; [congruence|]. split; [congruence|]. by apply Hnonec.
Qed.

Lemma scenario_yields_B_and_C_witness :
  ∃ rb rc,
    processVariantConsequences one_structure fifth_of_january scenario
    = ([BestStructures ["P12345"; "P12345"]], Js.Normal [rb; rc])
    ∧ variant rb = input variant_B
    ∧ aminoAcidMutation rb = "A42V"
    ∧ non_empty (icn3dAlphafold rb)
    ∧ (is_Some (getBestStructures one_structure ["P12345"; "P12345"] !! "P12345") →
       non_empty (icn3dPdb rb))
    ∧ variant rc = input variant_C
    ∧ aminoAcidMutation rc = "A42V"
    ∧ icn3dAlphafold rc = None
    ∧ icn3dPdb rc = None.
Proof.
  apply (scenario_yields_B_and_C one_structure fifth_of_january
           variant_A consequence_B).
  - left. reflexivity.
  - reflexivity.
  - reflexivity.
  - reflexivity.
  - reflexivity.
  - vm_compute. discriminate.
Defined.

(** *** C8 *)

Lemma processVariantConsequences_outcome pdbe date data :
  (processVariantConsequences pdbe date data).2
  = assemble_under (mapping_of pdbe data) date data.
Proof.
  unfold processVariantConsequences, assemble_under, mapping_of.
  by destruct (Assembler.collect data).
Qed.

(** Without the separator, [split] returns the string as its only part. *)
Lemma split_without_separator s :
  Js.includes "/" s = false → Js.split "/" s = [s].
Proof.
  induction s as [|a s IH]; [done|].
  rewrite includes_unfold. simpl.
  destruct (decide ("/"%char = a)) as [<-|Hne].
  - by destruct s.
  - intros Hrest. rewrite decide_False by done. by rewrite IH.
Qed.

Lemma select_eligible result c :
  Assembler.select result = Some c → Assembler.eligible c = true.
Proof.
  unfold Assembler.select. destruct result as [r|]; simpl; [|done].
  destruct (transcript_consequences r) as [tcs|]; simpl; [|done].
  intros Hfind. by apply find_some in Hfind as [_ ?].
Qed.

Lemma eligible_accession c :
  Assembler.eligible c = true → ∃ id, Assembler.accession c = Js.Normal id.
Proof.
  unfold Assembler.eligible, Assembler.accession.
  destruct (swissprot c) as [[|first rest]|].
  - by rewrite andb_false_r.
  - eauto.
  - by rewrite andb_false_r.
Qed.

Lemma collect_app data1 data2 :
  Assembler.collect (data1 ++ data2)
  = p1 ← Assembler.collect data1; p2 ← Assembler.collect data2; mret (p1 ++ p2).
Proof.
  unfold Assembler.collect. rewrite for_each_app.
  destruct (Js.for_each _ data1); simpl; [|done].
  destruct (Js.for_each _ data2); simpl; [|done].
  unfold mret, Js.completion_ret. by rewrite omap_app.
Qed.

Lemma annotate_app bestStructures date pushed1 pushed2 :
  Assembler.annotate bestStructures date (pushed1 ++ pushed2)
  = o1 ← Assembler.annotate bestStructures date pushed1;
    o2 ← Assembler.annotate bestStructures date pushed2;
    mret (o1 ++ o2).
Proof.
  unfold Assembler.annotate. rewrite for_each_app.
  destruct (Js.for_each _ pushed1); simpl; [|done].
  destruct (Js.for_each _ pushed2); simpl; [|done].
  unfold mret, Js.completion_ret. by rewrite fmap_app.
Qed.

(** C8 fails: the element whose amino-acid change is "AV" is not
    withheld. The call returns three records; the middle one carries the
    malformed consequence, with the mutation notation "AV7" and a
    non-empty predicted-structure link, like any other record. *)
Lemma malformed_record_is_returned :
  ¬ withholds_record one_structure fifth_of_january
      [Some variant_B; Some malformed_variant; Some variant_C]
      malformed_consequence
  ∧ ∃ rb r rc,
      (processVariantConsequences one_structure fifth_of_january
         [Some variant_B; Some malformed_variant; Some variant_C]).2
      = Js.Normal [rb; r; rc]
      ∧ consequence r = malformed_consequence
      ∧ variant r = input malformed_variant
      ∧ aminoAcids r = ["AV"]
      ∧ aminoAcidMutation r = "AV7"
      ∧ non_empty (icn3dAlphafold r).
Proof.
  destruct (processVariantConsequences one_structure fifth_of_january
              [Some variant_B; Some malformed_variant; Some variant_C]).2
    as [[|rb [|r [|rc [|]]]]|] eqn:Hout; try by vm_compute in Hout.
  assert (Hr : consequence r = malformed_consequence
               ∧ variant r = input malformed_variant
               ∧ aminoAcids r = ["AV"]
               ∧ aminoAcidMutation r = "AV7"
               ∧ non_empty (icn3dAlphafold r)).
  { vm_compute in Hout. injection Hout as _ <- _. by repeat split. }
  split.
  - intros Hwithheld.
    apply (Hwithheld _ r Hout); [|apply Hr].
    apply list_elem_of_further, list_elem_of_here.
  - by exists rb, r, rc.
Qed.

Lemma string_app_empty s : s +:+ "" = s.
Proof.
  induction s as [|a s IH]; [done|].
  change (String a s +:+ "") with (String a (s +:+ "")). by rewrite IH.
Qed.

Lemma assemble_under_app bestStructures date data1 data2 :
  assemble_under bestStructures date (data1 ++ data2)
  = o1 ← assemble_under bestStructures date data1;
    o2 ← assemble_under bestStructures date data2;
    mret (o1 ++ o2).
Proof.
  unfold assemble_under. rewrite collect_app.
  destruct (Assembler.collect data1) as [p1|e1]; simpl; [|done].
  destruct (Assembler.collect data2) as [p2|e2]; simpl.
  - by rewrite annotate_app.
  - destruct (Assembler.annotate bestStructures date p1); simpl; same_throw.
Qed.

(** C8, amended. Let the selected consequence of one element of a batch
    carry an amino-acid change [s] without the "/" separator. The element
    is assembled like any other: the first loop does not throw on it,
    records no error and skips nothing; it pushes a record that carries
    the consequence, whose [aminoAcids] is the single part [s] and whose
    mutation notation is [s] followed by the decimal position; after the
    other loops the record is returned with these fields, and with a
    non-empty predicted-structure link when it is high-impact. The
    outcome of the whole call is the outcome of the elements before it,
    of this record's own structure lookup and of the elements after it,
    each under the mapping answered in this call; when the others
    complete and the lookup finds nothing or a candidate, the call
    completes with the record between theirs. The records of the others
    are those of the call without the element when the mapper answers
    that call with the same mapping. *)
Theorem malformed_amino_acids_assembled pdbe date pre post m c s :
  Assembler.select m = Some c →
  amino_acids c = Some s →
  Js.includes "/" s = false →
  ∃ r0,
    Assembler.first_pass m = Js.Normal (Some r0)
    ∧ consequence r0 = c
    ∧ variant r0 = m ≫= input
    ∧ aminoAcids r0 = [s]
    ∧ aminoAcidMutation r0
      = s +:+ default "" (Js.number_to_string <$> protein_start c)
    ∧ let bs := mapping_of pdbe (pre ++ m :: post) in
      (processVariantConsequences pdbe date (pre ++ m :: post)).2
      = (o1 ← assemble_under bs date pre;
         r1 ← Assembler.attach bs r0;
         o2 ← assemble_under bs date post;
         mret (o1 ++ Assembler.visualize date r1 :: o2))
      ∧ (∀ r1, Assembler.attach bs r0 = Js.Normal r1 →
           let r := Assembler.visualize date r1 in
           consequence r = c
           ∧ variant r = m ≫= input
           ∧ aminoAcids r = [s]
           ∧ aminoAcidMutation r = aminoAcidMutation r0
           ∧ (is_high_impact r → non_empty (icn3dAlphafold r)))
      ∧ (∀ o1 o2,
           assemble_under bs date pre = Js.Normal o1 →
           assemble_under bs date post = Js.Normal o2 →
           bs !! uniprotId r0 ≠ Some [] →
           uniprotId r0 ∉ object_prototype_keys →
           ∃ r, (processVariantConsequences pdbe date (pre ++ m :: post)).2
                = Js.Normal (o1 ++ r :: o2)
                ∧ consequence r = c
                ∧ aminoAcids r = [s])
      ∧ (mapping_of pdbe (pre ++ post) = bs →
         ∀ o1 o2,
           assemble_under bs date pre = Js.Normal o1 →
           assemble_under bs date post = Js.Normal o2 →
           (processVariantConsequences pdbe date (pre ++ post)).2
           = Js.Normal (o1 ++ o2)).
Proof.
  intros Hselect Hamino Hslash.
  destruct (eligible_accession c (select_eligible _ _ Hselect)) as [id Hid].
  assert (∃ r0, Assembler.first_pass m = Js.Normal (Some r0)
                ∧ consequence r0 = c ∧ variant r0 = m ≫= input
                ∧ aminoAcids r0 = [s]
                ∧ aminoAcidMutation r0
                  = s +:+ default "" (Js.number_to_string <$> protein_start c)
                ∧ icn3dPdb r0 = None ∧ icn3dAlphafold r0 = None)
    as (r0 & Hfirst & Hc0 & Hv0 & Hparts & Hmut & Hpdb0 & Haf0).
  { unfold Assembler.first_pass. rewrite Hselect, Hid.
    unfold Assembler.amino_acid_parts. rewrite Hamino. simpl.
    eexists. split; [reflexivity|]. simpl.
    rewrite (split_without_separator s Hslash). simpl.
    split; [done|]. split; [done|]. split; [done|]. split; [|done].
    unfold Js.join_opt. simpl.
    change (s +:+ "" +:+ ?pos +:+ "" +:+ "") with (s +:+ (pos +:+ "")).
    by rewrite string_app_empty. }
  exists r0. split; [done|]. split; [done|]. split; [done|].
  split; [done|]. split; [done|].
  intros bs.
  assert (Hvis : ∀ r1, Assembler.attach bs r0 = Js.Normal r1 →
            let r := Assembler.visualize date r1 in
            consequence r = c ∧ variant r = m ≫= input ∧ aminoAcids r = [s]
            ∧ aminoAcidMutation r = aminoAcidMutation r0
            ∧ (is_high_impact r → non_empty (icn3dAlphafold r))).
  { intros r1 Hr1 r. subst r.
    destruct (visualize_fields date r1)
      as (Hv & _ & _ & _ & Hp & Hm & Hsift & Hpoly & Hc).
    destruct (attach_fields _ _ _ Hr1)
      as (Hv1 & _ & Hp1 & Hm1 & _ & _ & Hpdb1 & Haf1 & Hc1).
    destruct (visualize_commands date r1) as (Haf & _); [congruence..|].
    split; [congruence|]. split; [congruence|]. split; [congruence|].
    split; [congruence|].
    intros Hhigh. apply Haf. unfold is_high_impact in *.
    by rewrite <- Hsift, <- Hpoly. }
  assert (Hwhole :
    (processVariantConsequences pdbe date (pre ++ m :: post)).2
    = (o1 ← assemble_under bs date pre;
       r1 ← Assembler.attach bs r0;
       o2 ← assemble_under bs date post;
       mret (o1 ++ Assembler.visualize date r1 :: o2))).
  { rewrite processVariantConsequences_outcome. fold bs.
    unfold assemble_under.
    rewrite (collect_app pre (m :: post)).
    change (m :: post) with ([m] ++ post). rewrite (collect_app [m] post).
    assert (Assembler.collect [m] = Js.Normal [r0]) as ->.
    { unfold Assembler.collect. simpl. by rewrite Hfirst. }
    destruct (Assembler.collect pre) as [p1|e1]; simpl;
      [|same_throw].
    destruct (Assembler.collect post) as [p2|e2]; simpl.
    - rewrite annotate_app.
      change ([r0] ++ p2) with (r0 :: p2).
      destruct (Assembler.annotate bs date p1) as [o1|e]; simpl;
        [|same_throw].
      unfold Assembler.annotate. rewrite for_each_cons.
      destruct (Assembler.attach bs r0) as [r1|e]; simpl;
        [|same_throw].
      destruct (Js.for_each (Assembler.attach bs) p2) as [a2|e]; simpl;
        [done|same_throw].
    - destruct (Assembler.annotate bs date p1) as [o1|e]; simpl;
        [|same_throw].
      destruct (Assembler.attach bs r0) as [r1|e]; simpl;
        same_throw. }
  split; [exact Hwhole|]. split; [exact Hvis|]. split.
  - intros o1 o2 Hpre Hpost Hmapped Hkey.
    assert (∃ r1, Assembler.attach bs r0 = Js.Normal r1) as [r1 Hr1].
    { unfold Assembler.attach. rewrite (get_property_ordinary _ _ Hkey).
      destruct (bs !! uniprotId r0) as [[|best rest]|]; [done|eauto..]. }
    exists (Assembler.visualize date r1).
    destruct (Hvis r1 Hr1) as (Hc & _ & Hp & _).
    split; [|by split].
    rewrite Hwhole, Hpre, Hr1, Hpost. reflexivity.
  - intros Hsame o1 o2 Hpre Hpost.
    rewrite processVariantConsequences_outcome, Hsame, assemble_under_app.
    by rewrite Hpre, Hpost.
Qed.

Lemma malformed_amino_acids_assembled_witness :
  ∃ r0 rb r rc,
    Assembler.first_pass (Some malformed_variant) = Js.Normal (Some r0)
    ∧ aminoAcids r0 = ["AV"]
    ∧ aminoAcidMutation r0 = "AV7"
    ∧ (processVariantConsequences one_structure fifth_of_january
         [Some variant_B; Some malformed_variant; Some variant_C]).2
      = Js.Normal [rb; r; rc]
    ∧ consequence r = malformed_consequence
    ∧ (processVariantConsequences one_structure fifth_of_january
         [Some variant_B; Some variant_C]).2
      = Js.Normal [rb; rc].
Proof.
  edestruct (malformed_amino_acids_assembled one_structure fifth_of_january
               [Some variant_B] [Some variant_C] (Some malformed_variant))
    as (r0 & Hfirst & _ & _ & Hparts & Hmut & _ & _ & Hcomplete & Hwithout).
  - reflexivity.
  - reflexivity.
  - reflexivity.
  - vm_compute in Hfirst. injection Hfirst as <-.
    set (bs := mapping_of one_structure _) in Hcomplete, Hwithout.
    destruct (assemble_under bs fifth_of_january [Some variant_B])
      as [[|rb [|]]|] eqn:Hpre; try by vm_compute in Hpre.
    destruct (assemble_under bs fifth_of_january [Some variant_C])
      as [[|rc [|]]|] eqn:Hpost; try by vm_compute in Hpost.
    destruct (Hcomplete [rb] [rc]) as (r & Hrun & Hc & _).
    + reflexivity.
    + reflexivity.
    + vm_compute. discriminate.
    + apply (bool_decide_unpack _). vm_compute. exact I.
    + eexists _, rb, r, rc.
      split; [reflexivity|]. split; [exact Hparts|].
      split; [exact Hmut|]. split; [exact Hrun|]. split; [exact Hc|].
      apply (Hwithout eq_refl [rb] [rc]); reflexivity.
Defined.

Example malformed_batch_completes :
  match (processVariantConsequences one_structure fifth_of_january
           [Some variant_B; Some malformed_variant; Some variant_C]).2 with
  | Js.Normal out => aminoAcidMutation <$> out
  | Js.Throw _ => []
  end = ["A42V"; "AV7"; "A42V"].
Proof. vm_compute. reflexivity. Qed.

(** ** Protein-id-mapping client *)

Section polling.
Context {R : Type} (service : IdMapping R) (jobId : option string).

Let poll : ClientEvent := Fetch (ProteinIds.status_url jobId) None.
Let status (n : nat) : option R :=
  status_results service (ProteinIds.status_url jobId) n.

Lemma wait_unpopulated fuel polls :
  (∀ i, (i < fuel)%nat → status (polls + i) = None) →
  ProteinIds.wait service fuel jobId polls = (idle_rounds jobId fuel, None).
Proof.
  revert polls. induction fuel as [|fuel IH]; intros polls Hnone; [done|].
  simpl. pose proof (Hnone 0%nat ltac:(lia)) as H0.
  unfold status in H0. rewrite Nat.add_0_r in H0. rewrite H0.
  rewrite IH; [done|]. intros i Hi.
  replace (S polls + i)%nat with (polls + S i)%nat by lia.
  apply Hnone. lia.
Qed.

Lemma wait_populated fuel polls k results :
  status (polls + k) = Some results →
  (∀ i, (i < k)%nat → status (polls + i) = None) →
  (k < fuel)%nat →
  ProteinIds.wait service fuel jobId polls
  = (idle_rounds jobId k ++ [poll], Some results).
Proof.
  revert polls k. induction fuel as [|fuel IH]; intros polls k Hk Hnone Hfuel; [lia|].
  simpl. destruct k as [|k].
  - unfold status in Hk. rewrite Nat.add_0_r in Hk. by rewrite Hk.
  - pose proof (Hnone 0%nat ltac:(lia)) as H0.
    unfold status in H0. rewrite Nat.add_0_r in H0. rewrite H0.
    rewrite (IH (S polls) k); [done| | |lia].
    + by replace (S polls + k)%nat with (polls + S k)%nat by lia.
    + intros i Hi. replace (S polls + i)%nat with (polls + S i)%nat by lia.
      apply Hnone. lia.
Qed.

Lemma wait_returned fuel polls trace results :
  ProteinIds.wait service fuel jobId polls = (trace, Some results) →
  ∃ k, (k < fuel)%nat
    ∧ status (polls + k) = Some results
    ∧ (∀ i, (i < k)%nat → status (polls + i) = None)
    ∧ trace = idle_rounds jobId k ++ [poll].
Proof.
  revert polls trace.
  induction fuel as [|fuel IH]; intros polls trace Hrun; [done|].
  simpl in Hrun.
  destruct (status_results service (ProteinIds.status_url jobId) polls)
    as [found|] eqn:Hfirst.
  - injection Hrun as <- <-. exists 0%nat. split; [lia|].
    split; [unfold status; by rewrite Nat.add_0_r|]. split; [lia|done].
  - destruct (ProteinIds.wait service fuel jobId (S polls)) as [rest result] eqn:Hrest.
    simpl in Hrun. injection Hrun as <- ->.
    destruct (IH _ _ Hrest) as (k & Hk & Hfound & Hnone & ->).
    exists (S k). split; [lia|]. split; [|split; [|done]].
    + by replace (polls + S k)%nat with (S polls + k)%nat by lia.
    + intros [|i] Hi.
      * unfold status. by rewrite Nat.add_0_r.
      * replace (polls + S i)%nat with (S polls + i)%nat by lia.
        apply Hnone. lia.
Qed.
End polling.

(** C10. The client submits the job, then sends status requests with a
    sleep of 1000 ms after each request that comes back without results.
    It returns at the first request whose answer carries results, and
    returns exactly them; it returns in no other way; and when no answer
    ever carries results, it is still polling after any number of rounds:
    there is no bound on the loop. *)
Theorem getProteinIds_polls_until_results {R} (service : IdMapping R)
    (ids : UrlValue) (from to : string) :
  let body := encodeUrl [("from", Single from); ("to", Single to); ("ids", ids)] false in
  let jobId := run_job service body in
  let status := status_results service (ProteinIds.status_url jobId) in
  let submit := Fetch (ProteinIds.url +:+ "/run") (Some body) in
  let poll := Fetch (ProteinIds.status_url jobId) None in
  (∀ k results,
     status k = Some results → (∀ i, (i < k)%nat → status i = None) →
     ∀ fuel, (k < fuel)%nat →
       getProteinIds service fuel ids from to
       = (submit :: idle_rounds jobId k ++ [poll], Some results))
  ∧ (∀ fuel trace results,
       getProteinIds service fuel ids from to = (trace, Some results) →
       ∃ k, status k = Some results
         ∧ (∀ i, (i < k)%nat → status i = None)
         ∧ trace = submit :: idle_rounds jobId k ++ [poll])
  ∧ ((∀ n, status n = None) →
     ∀ fuel,
       getProteinIds service fuel ids from to
       = (submit :: idle_rounds jobId fuel, None)).
Proof.
  intros body jobId status submit poll. unfold getProteinIds.
  fold body. fold jobId. split; [|split].
  - intros k results Hk Hnone fuel Hfuel.
    by rewrite (wait_populated service jobId fuel 0 k results).
  - intros fuel trace results Hrun.
    destruct (ProteinIds.wait service fuel jobId 0) as [t result] eqn:Hwait.
    simpl in Hrun. injection Hrun as <- ->.
    destruct (wait_returned _ _ _ _ _ _ Hwait) as (k & _ & Hk & Hnone & ->).
    by exists k.
  - intros Hnever fuel.
    rewrite (wait_unpopulated service jobId fuel 0); [done|].
    intros i _. apply Hnever.
Qed.

Lemma getProteinIds_polls_until_results_witness :
  getProteinIds ready_at_third 5 (Many ["ENSG01"; "ENSG02"]) "Ensembl" "UniProtKB-Swiss-Prot"
  = ( [ Fetch "https://rest.uniprot.org/idmapping/run"
          (Some "from=Ensembl&to=UniProtKB-Swiss-Prot&ids=ENSG01,ENSG02");
        Fetch "https://rest.uniprot.org/idmapping/status/job-1" None; Sleep 1000;
        Fetch "https://rest.uniprot.org/idmapping/status/job-1" None; Sleep 1000;
        Fetch "https://rest.uniprot.org/idmapping/status/job-1" None ],
      Some "mapped" )
  ∧ ∀ fuel,
      (getProteinIds never_ready fuel (Many ["ENSG01"; "ENSG02"]) "Ensembl"
         "UniProtKB-Swiss-Prot").2 = None.
Proof.
  split.
  - apply (proj1 (getProteinIds_polls_until_results ready_at_third
                    (Many ["ENSG01"; "ENSG02"]) "Ensembl" "UniProtKB-Swiss-Prot")
             2%nat "mapped").
    + reflexivity.
    + intros [|[|i]] Hi; [reflexivity|reflexivity|lia].
    + lia.
  - intros fuel.
    rewrite (proj2 (proj2 (getProteinIds_polls_until_results never_ready
                    (Many ["ENSG01"; "ENSG02"]) "Ensembl" "UniProtKB-Swiss-Prot"))).
    + reflexivity.
    + reflexivity.
Defined.


(** * Further properties *)

(** ** Indexed Variant Reader: what is returned *)

Section reader_contents.
Context (file : IndexedFile) (limit : Z) (textFilter : option string).
Implicit Types (variants : list VariantRecord) (lines : list string).

Let matching lines : list VariantRecord :=
  parseLine file <$> List.filter (Reader.passes textFilter) lines.

Lemma lines_taken lines variants :
  (length variants ≤ Z.to_nat limit)%nat →
  foldl (Reader.on_line file limit textFilter) variants lines
  = variants ++ take (Z.to_nat limit - length variants) (matching lines).
Proof.
  revert variants. induction lines as [|line lines IH]; intros variants Hle.
  { unfold matching. simpl. by rewrite take_nil, app_nil_r. }
  simpl. unfold Reader.on_line at 2. unfold matching. simpl.
  destruct (Z.ltb_spec (Z.of_nat (length variants)) limit) as [Hlt|Hge]; simpl.
  - destruct (Reader.passes textFilter line); simpl.
    + rewrite IH by (rewrite length_app; simpl; lia).
      rewrite length_app. simpl. rewrite <- app_assoc. simpl.
      replace (Z.to_nat limit - length variants)%nat
        with (S (Z.to_nat limit - (length variants + 1)))%nat by lia.
      done.
    + by apply IH.
  - rewrite IH by done.
    replace (Z.to_nat limit - length variants)%nat with 0%nat by lia.
    by destruct (Reader.passes textFilter line).
Qed.

Lemma refs_taken names st :
  (length st.2 ≤ Z.to_nat limit)%nat →
  (foldl (Reader.on_ref file limit textFilter) st names).2
  = st.2 ++ take (Z.to_nat limit - length st.2)
              (matching (concat (linesOf file <$> names))).
Proof.
  revert st. induction names as [|name names IH]; intros st Hle.
  { unfold matching. simpl. by rewrite take_nil, app_nil_r. }
  simpl. rewrite IH; simpl; rewrite lines_taken by done.
  - unfold matching. rewrite List.filter_app, fmap_app, take_app.
    rewrite <- app_assoc. f_equal. f_equal.
    rewrite length_app, length_take. f_equal. lia.
  - rewrite length_app, length_take. lia.
Qed.
End reader_contents.

(** X1. The reader returns the parsed lines that pass the filter, taken
    over the reference sequences in index order and within each in the
    order of delivery, cut after the first [limit] of them. *)
Theorem readVcfFile_first_matching_lines file limit textFilter :
  (readVcfFile file limit textFilter).2
  = take (Z.to_nat limit)
      (parseLine file <$>
         List.filter (Reader.passes textFilter) (delivered_lines file)).
Proof.
  unfold readVcfFile, Reader.loop, delivered_lines.
  rewrite refs_taken by (simpl; lia). simpl. f_equal. lia.
Qed.

Lemma filter_all {A} (f : A → bool) (l : list A) :
  (∀ x, f x = true) → List.filter f l = l.
Proof.
  intros Hall. induction l as [|x l IH]; [done|].
  simpl. by rewrite Hall, IH.
Qed.

(** X2. Without a text filter ([null], or the empty string that a blank
    form field gives) no line is rejected: the reader returns the first
    [limit] lines of the file, parsed. *)
Theorem readVcfFile_unfiltered file limit textFilter :
  Js.truthy textFilter = false →
  (readVcfFile file limit textFilter).2
  = take (Z.to_nat limit) (parseLine file <$> delivered_lines file).
Proof.
  intros Hfalsy. unfold readVcfFile, Reader.loop, delivered_lines.
  rewrite refs_taken by (simpl; lia). simpl.
  rewrite filter_all.
  - f_equal. lia.
  - intros line. unfold Reader.passes. by rewrite Hfalsy.
Qed.

Lemma readVcfFile_unfiltered_witness :
  (readVcfFile two_contigs 5 (Some "")).2
  = take 5 (parseLine two_contigs <$> delivered_lines two_contigs).
Proof. apply (readVcfFile_unfiltered two_contigs 5 (Some "")). reflexivity. Defined.

(** X3. A limit of zero or less returns nothing, and every reference
    sequence is read all the same. *)
Theorem readVcfFile_non_positive_limit file limit textFilter :
  limit ≤ 0 →
  readVcfFile file limit textFilter = (GetLines <$> refNames file, []).
Proof.
  intros Hlimit.
  rewrite (surjective_pairing (readVcfFile file limit textFilter)).
  unfold readVcfFile, Reader.loop.
  rewrite refs_trace, refs_taken by (simpl; lia). simpl.
  by replace (Z.to_nat limit - 0)%nat with 0%nat by lia.
Qed.

Lemma readVcfFile_non_positive_limit_witness :
  readVcfFile two_contigs 0 None = ([GetLines "1"; GetLines "2"], []).
Proof. apply (readVcfFile_non_positive_limit two_contigs 0 None). lia. Defined.

(** ** Batcher: the batches one by one *)

Section chunk_batches.
Context {A : Type}.
Implicit Types (array : list A) (batches : list (list A)).

Lemma drain_windows fuel array chunkSize i batches :
  1 ≤ chunkSize → 0 ≤ i →
  Chunk.drain fuel array chunkSize i = Some batches →
  Z.of_nat (length batches)
  = (Z.max 0 (Z.of_nat (length array) - i) + chunkSize - 1) `div` chunkSize
  ∧ ∀ k, (k < length batches)%nat →
      batches !! k
      = Some (take (Z.to_nat chunkSize)
                (drop (Z.to_nat i + k * Z.to_nat chunkSize) array)).
Proof.
  intros Hsize. revert i batches.
  induction fuel as [|fuel IH]; intros i batches Hi Hrun; [done|].
  simpl in Hrun. unfold Chunk.next in Hrun.
  destruct (Z.ltb_spec i (Z.of_nat (length array))) as [Hlt|Hge].
  - destruct (Chunk.drain fuel array chunkSize (i + chunkSize)) as [rest|] eqn:Hrest;
      [|done].
    simpl in Hrun. injection Hrun as <-.
    destruct (IH (i + chunkSize) rest ltac:(lia) Hrest) as [Hcount Hwindow]. split.
    + simpl length. rewrite Nat2Z.inj_succ, Hcount.
      rewrite (Z.max_r 0 (Z.of_nat (length array) - i)) by lia.
      replace (Z.of_nat (length array) - i + chunkSize - 1)
        with (Z.of_nat (length array) - i - 1 + 1 * chunkSize) by lia.
      rewrite Z.div_add by lia.
      destruct (Z.le_gt_cases chunkSize (Z.of_nat (length array) - i)).
      * rewrite Z.max_r by lia.
        replace (Z.of_nat (length array) - (i + chunkSize) + chunkSize - 1)
          with (Z.of_nat (length array) - i - 1) by lia.
        lia.
      * rewrite Z.max_l by lia.
        rewrite !Z.div_small by lia. lia.
    + intros [|k] Hk; simpl.
      * rewrite slice_window by lia. do 3 f_equal. lia.
      * rewrite Hwindow by (simpl in Hk; lia). do 3 f_equal. lia.
  - injection Hrun as <-. split; [|simpl; lia].
    rewrite Z.max_l by lia. rewrite Z.div_small by lia. done.
Qed.

Lemma drain_stuck fuel array chunkSize i :
  chunkSize ≤ 0 → array ≠ [] → i ≤ 0 →
  Chunk.drain fuel array chunkSize i = None.
Proof.
  intros Hsize Harray. revert i.
  induction fuel as [|fuel IH]; intros i Hi; [done|].
  simpl. unfold Chunk.next.
  destruct (Z.ltb_spec i (Z.of_nat (length array))) as [Hlt|Hge].
  - by rewrite IH by lia.
  - destruct array; [done|]. simpl in Hge. lia.
Qed.

Lemma legacy_chunk_loop fuel array chunkSize i batches :
  Legacy.chunk_loop fuel array chunkSize i batches
  = (batches ++.) <$> Chunk.drain fuel array chunkSize i.
Proof.
  revert i batches. induction fuel as [|fuel IH]; intros i batches; [done|].
  simpl. unfold Chunk.next.
  destruct (i <? Z.of_nat (length array)); simpl.
  - rewrite IH. destruct (Chunk.drain fuel array chunkSize (i + chunkSize));
      simpl; [|done].
    by rewrite <- app_assoc.
  - by rewrite app_nil_r.
Qed.
End chunk_batches.

(** X4. For a batch size of at least 1, the number of batches is the
    array length divided by the size, rounded up, and batch [k] is the
    window of the array that starts at [k * chunkSize]. *)
Theorem chunk_windows {A} (array : list A) (chunkSize : Z) fuel batches :
  1 ≤ chunkSize →
  chunk fuel array chunkSize = Some batches →
  Z.of_nat (length batches)
  = (Z.of_nat (length array) + chunkSize - 1) `div` chunkSize
  ∧ ∀ k, (k < length batches)%nat →
      batches !! k
      = Some (take (Z.to_nat chunkSize) (drop (k * Z.to_nat chunkSize) array)).
Proof.
  intros Hsize Hrun.
  destruct (drain_windows fuel array chunkSize 0 batches Hsize ltac:(lia) Hrun)
    as [Hcount Hwindow].
  split; [|exact Hwindow].
  rewrite Hcount. f_equal. lia.
Qed.

Lemma chunk_windows_witness :
  Z.of_nat (length [[1; 2]; [3; 4]; [5]]) = (5 + 2 - 1) `div` 2
  ∧ ∀ k, (k < 3)%nat →
      [[1; 2]; [3; 4]; [5]] !! k
      = Some (take 2 (drop (k * 2) [1; 2; 3; 4; 5])).
Proof.
  apply (chunk_windows [1; 2; 3; 4; 5] 2 6 [[1; 2]; [3; 4]; [5]]).
  - lia.
  - reflexivity.
Defined.

(** X5. With a batch size of zero or less the loop counter never gets
    past the start of a non-empty array: the generator yields for ever
    and the loop that drains it never ends. *)
Theorem chunk_non_positive_size_never_finishes {A} (array : list A)
    (chunkSize : Z) fuel :
  chunkSize ≤ 0 → array ≠ [] →
  chunk fuel array chunkSize = None.
Proof. intros Hsize Harray. by apply drain_stuck. Qed.

Lemma chunk_non_positive_size_never_finishes_witness :
  chunk 1000 [1; 2; 3] (-2) = None.
Proof.
  apply (chunk_non_positive_size_never_finishes [1; 2; 3] (-2) 1000).
  - lia.
  - discriminate.
Defined.

(** X6. The generator yields exactly the batches that the earlier, eager
    [chunk] returned, for every array and size, and both take the same
    number of loop rounds. *)
Theorem chunk_agrees_with_legacy {A} (array : list A) (chunkSize : Z) fuel :
  chunk fuel array chunkSize = Legacy.chunk fuel array chunkSize.
Proof.
  unfold Legacy.chunk, chunk. rewrite legacy_chunk_loop.
  by destruct (Chunk.drain fuel array chunkSize 0).
Qed.

(** ** Strings: characters, [split] after [join] *)

Lemma has_char_app c s t : has_char c (s +:+ t) = has_char c s || has_char c t.
Proof.
  induction s as [|a s IH]; [done|].
  change (String a s +:+ t) with (String a (s +:+ t)).
  simpl. by rewrite IH, orb_assoc.
Qed.

Lemma every_char_app P s t :
  every_char P (s +:+ t) = every_char P s && every_char P t.
Proof.
  induction s as [|a s IH]; [done|].
  change (String a s +:+ t) with (String a (s +:+ t)).
  simpl. by rewrite IH, andb_assoc.
Qed.

Lemma every_char_weaken (P Q : ascii → bool) s :
  (∀ a, P a = true → Q a = true) →
  every_char P s = true → every_char Q s = true.
Proof.
  intros HPQ. induction s as [|a s IH]; [done|]. simpl.
  intros [Ha Hs]%andb_true_iff. by rewrite (HPQ a Ha), IH.
Qed.

Lemma every_char_excludes P c s :
  P c = false → every_char P s = true → has_char c s = false.
Proof.
  intros Hc. induction s as [|a s IH]; [done|]. simpl.
  intros [Ha Hs]%andb_true_iff. rewrite IH by done.
  rewrite orb_false_r. apply bool_decide_eq_false. intros ->. congruence.
Qed.

Lemma has_char_drop_chars c n s :
  has_char c s = false → has_char c (Js.drop_chars n s) = false.
Proof.
  revert s. induction n as [|n IH]; intros [|a s]; simpl; try done.
  intros [_ Hs]%orb_false_iff. by apply IH.
Qed.

Lemma has_char_replace c p s :
  has_char c s = false → has_char c (Js.replace p "" s) = false.
Proof.
  induction s as [|a s IH]; rewrite replace_unfold;
    destruct (Js.starts_with p _); intros Hs; try done.
  - by apply (has_char_drop_chars c (String.length p) "").
  - by apply (has_char_drop_chars c (String.length p) (String a s)).
  - simpl in *. apply orb_false_iff in Hs as [-> Hs]. by apply IH.
Qed.

Lemma has_char_join c sep l :
  has_char c sep = false → Forall (λ s, has_char c s = false) l →
  has_char c (Js.join sep l) = false.
Proof.
  intros Hsep. induction 1 as [|x l Hx _ IH]; [done|].
  destruct l as [|y l]; [done|].
  change (Js.join sep (x :: y :: l)) with (x +:+ sep +:+ Js.join sep (y :: l)).
  by rewrite !has_char_app, Hx, Hsep, IH.
Qed.

(** A string without the separator is its own single part. *)
Lemma split_whole sep s : has_char sep s = false → Js.split sep s = [s].
Proof.
  induction s as [|a s IH]; [done|]. simpl.
  intros [Ha Hs]%orb_false_iff. apply bool_decide_eq_false in Ha.
  rewrite decide_False by done. by rewrite IH.
Qed.

Lemma split_first_part sep s t :
  has_char sep s = false →
  Js.split sep (s +:+ String sep t) = s :: Js.split sep t.
Proof.
  induction s as [|a s IH].
  - intros _. change ("" +:+ String sep t) with (String sep t).
    simpl. by rewrite decide_True.
  - simpl. intros [Ha Hs]%orb_false_iff. apply bool_decide_eq_false in Ha.
    change (String a s +:+ String sep t) with (String a (s +:+ String sep t)).
    simpl. rewrite decide_False by done. by rewrite IH.
Qed.

(** Splitting a joined array gives the array back, when no element holds
    the separator. *)
Lemma split_join sep l :
  l ≠ [] → Forall (λ s, has_char sep s = false) l →
  Js.split sep (Js.join (String sep "") l) = l.
Proof.
  intros Hne Hall. induction Hall as [|x l Hx Hl IH]; [done|].
  destruct l as [|y l]; [by apply split_whole|].
  change (Js.join (String sep "") (x :: y :: l))
    with (x +:+ String sep (Js.join (String sep "") (y :: l))).
  rewrite split_first_part by done. f_equal. by apply IH.
Qed.

(** The decimal text of a number has no blank. *)
Lemma pretty_N_char_no_blank n : pretty_N_char n ≠ " "%char.
Proof. unfold pretty_N_char. by repeat case_match. Qed.

Lemma pretty_N_go_no_blank x s :
  has_char " " s = false → has_char " " (pretty_N_go x s) = false.
Proof.
  revert s. induction (N.lt_wf_0 x) as [x _ IH]; intros s Hs.
  destruct (decide (x = 0%N)) as [->|Hx]; [by rewrite pretty_N_go_0|].
  rewrite pretty_N_go_step by lia. apply IH.
  - apply N.div_lt; lia.
  - simpl. rewrite Hs, orb_false_r. apply bool_decide_eq_false.
    apply pretty_N_char_no_blank.
Qed.

Lemma number_to_string_no_blank n : has_char " " (Js.number_to_string n) = false.
Proof.
  assert (HN : ∀ x : N, has_char " " (pretty x) = false).
  { intros x. unfold pretty, pretty_N. case_decide; [done|].
    by apply pretty_N_go_no_blank. }
  unfold Js.number_to_string, pretty, pretty_Z.
  destruct n as [|p|p]; [done|apply (HN (Npos p))|].
  rewrite has_char_app. simpl. apply (HN (Npos p)).
Qed.

(** ** Query-line formatter: the fields of the line *)

(** X7. When no field of the variant holds a blank, splitting the query
    line at the blanks gives back its six fields: reference sequence,
    position, first identifier, reference allele, comma-joined alternate
    alleles, and the closing dot, each missing one being a dot. *)
Theorem parseVariant_splits_into_six_fields v :
  (∀ chrom, CHROM v = Some chrom → has_char " " chrom = false) →
  (∀ id, first_id (ID v) = Some id → has_char " " id = false) →
  (∀ ref, REF v = Some ref → has_char " " ref = false) →
  (∀ alt, ALT v = Some alt → Forall (λ a, has_char " " a = false) alt) →
  Js.split " " (parseVariant v)
  = [ default "." (strip_chrom (CHROM v));
      default "." (Js.number_to_string <$> POS v);
      default "." (first_id (ID v));
      default "." (REF v);
      default "." (join_alt (ALT v));
      "." ].
Proof.
  intros Hchrom Hid Href Halt. unfold parseVariant.
  apply (split_join " "%char); [done|].
  repeat apply Forall_cons_2; try apply Forall_nil_2.
  - unfold strip_chrom. destruct (CHROM v) as [chrom|]; [|done].
    destruct (Js.truthy (Some chrom)); simpl; [|by apply Hchrom].
    apply has_char_replace. by apply Hchrom.
  - destruct (POS v); [apply number_to_string_no_blank|done].
  - destruct (first_id (ID v)) as [id|]; [by apply Hid|done].
  - destruct (REF v) as [ref|]; [by apply Href|done].
  - unfold join_alt. destruct (ALT v) as [alt|]; [|done]. simpl.
    apply has_char_join; [done|]. by apply Halt.
  - done.
Qed.

Lemma parseVariant_splits_into_six_fields_witness :
  Js.split " "
    (parseVariant {| CHROM := Some "chrX"; POS := Some 1500; ID := Some ["rs7"; "rs8"];
                     REF := Some "G"; ALT := None |})
  = ["X"; "1500"; "rs7"; "G"; "."; "."].
Proof.
  apply (parseVariant_splits_into_six_fields
           {| CHROM := Some "chrX"; POS := Some 1500; ID := Some ["rs7"; "rs8"];
              REF := Some "G"; ALT := None |}).
  - intros chrom [= <-]. reflexivity.
  - intros id [= <-]. reflexivity.
  - intros ref [= <-]. reflexivity.
  - intros alt [=].
Defined.

(** X8. The guarded formatter prints the same line as the earlier
    revision wherever that one printed every field (reference sequence,
    position, reference allele and alternate alleles present; identifier
    missing or with a first element), and where the earlier revision
    threw, on a missing reference sequence or missing alternate alleles,
    it prints a line. *)
Theorem parseVariant_agrees_with_legacy v :
  (is_Some (CHROM v) → is_Some (POS v) → is_Some (REF v) → is_Some (ALT v) →
   ID v ≠ Some [] →
   Legacy.parseVariant v = Js.Normal (parseVariant v))
  ∧ (CHROM v = None ∨ ALT v = None →
     Legacy.parseVariant v = Js.Throw Js.TypeError).
Proof.
  unfold Legacy.parseVariant, parseVariant.
  destruct v as [chrom pos id ref alt]. simpl. split.
  - intros [c ->] [p ->] [r ->] [a ->] Hid. f_equal.
    unfold strip_chrom. destruct id as [[|i ids]|]; [done|..];
      destruct c; reflexivity.
  - intros [-> | ->]; [done|]. by destruct chrom.
Qed.

Lemma parseVariant_agrees_with_legacy_witness :
  Legacy.parseVariant
    {| CHROM := Some "chr1"; POS := Some 100; ID := None;
       REF := Some "A"; ALT := Some ["T"; "G"] |}
  = Js.Normal "1 100 . A T,G ."
  ∧ Legacy.parseVariant
      {| CHROM := Some "chr1"; POS := Some 100; ID := None;
         REF := Some "A"; ALT := None |}
    = Js.Throw Js.TypeError.
Proof.
  split.
  - apply (proj1 (parseVariant_agrees_with_legacy
                    {| CHROM := Some "chr1"; POS := Some 100; ID := None;
                       REF := Some "A"; ALT := Some ["T"; "G"] |}));
      try (by eexists); discriminate.
  - apply (proj2 (parseVariant_agrees_with_legacy
                    {| CHROM := Some "chr1"; POS := Some 100; ID := None;
                       REF := Some "A"; ALT := None |})).
    by right.
Defined.

(** ** [encodeURIComponent] and [encodeUrl] *)

Lemma hex_digits_unreserved a :
  Js.is_unreserved (Js.hex_digit (Ascii.N_of_ascii a / 16)) = true
  ∧ Js.is_unreserved (Js.hex_digit (Ascii.N_of_ascii a mod 16)) = true.
Proof. destruct a as [[] [] [] [] [] [] [] []]; vm_compute; done. Qed.

Lemma encodeURIComponent_cons a s :
  Js.encodeURIComponent (String a s)
  = if Js.is_unreserved a then String a (Js.encodeURIComponent s)
    else String "%"
           (String (Js.hex_digit (Ascii.N_of_ascii a / 16))
              (String (Js.hex_digit (Ascii.N_of_ascii a mod 16))
                 (Js.encodeURIComponent s))).
Proof. reflexivity. Qed.

Lemma encodeURIComponent_url_safe s :
  every_char url_safe (Js.encodeURIComponent s) = true.
Proof.
  induction s as [|a s IH]; [done|].
  rewrite encodeURIComponent_cons.
  destruct (Js.is_unreserved a) eqn:Ha.
  - cbn [every_char]. unfold url_safe at 1. by rewrite Ha, IH.
  - destruct (hex_digits_unreserved a) as [Hhigh Hlow].
    cbn [every_char]. unfold url_safe at 1 2 3. by rewrite Hhigh, Hlow, IH.
Qed.

(** The output of [encodeURIComponent] holds only unreserved characters
    and percent signs: no blank, and none of the separators [&], [=],
    [,], [;], [|] that the query string and the command script use. *)
Lemma encodeURIComponent_alphabet s :
  every_char url_safe (Js.encodeURIComponent s) = true
  ∧ Forall (λ c, has_char c (Js.encodeURIComponent s) = false)
      [" "; "&"; "="; ","; ";"; "|"]%char.
Proof.
  pose proof (encodeURIComponent_url_safe s) as Hsafe.
  split; [done|].
  repeat apply Forall_cons_2; try apply Forall_nil_2;
    by apply (every_char_excludes url_safe).
Qed.

Lemma hex_value_digit n : (n < 16)%N → hex_value (Js.hex_digit n) = n.
Proof.
  intros Hn. rewrite <- (N2Nat.id n).
  assert (Hm : (N.to_nat n < 16)%nat) by lia.
  revert Hm. generalize (N.to_nat n). intros m Hm.
  do 16 (destruct m as [|m]; [reflexivity|]). lia.
Qed.

Lemma high_digit_bound a : (Ascii.N_of_ascii a / 16 < 16)%N.
Proof.
  pose proof (N_ascii_bounded a).
  apply N.Div0.div_lt_upper_bound. lia.
Qed.

Lemma same_hex_digits a b :
  Js.hex_digit (Ascii.N_of_ascii a / 16) = Js.hex_digit (Ascii.N_of_ascii b / 16) →
  Js.hex_digit (Ascii.N_of_ascii a mod 16) = Js.hex_digit (Ascii.N_of_ascii b mod 16) →
  a = b.
Proof.
  intros Hhigh%(f_equal hex_value) Hlow%(f_equal hex_value).
  rewrite !hex_value_digit in Hhigh by apply high_digit_bound.
  rewrite !hex_value_digit in Hlow by (apply N.mod_upper_bound; lia).
  rewrite <- (ascii_N_embedding a), <- (ascii_N_embedding b). f_equal.
  rewrite (N.div_mod (Ascii.N_of_ascii a) 16), (N.div_mod (Ascii.N_of_ascii b) 16)
    by lia.
  congruence.
Qed.

(** [encodeURIComponent] is injective: two different values never get
    the same encoding. *)
Lemma encodeURIComponent_injective s t :
  Js.encodeURIComponent s = Js.encodeURIComponent t → s = t.
Proof.
  revert t. induction s as [|a s IH]; intros [|b t];
    rewrite ?encodeURIComponent_cons.
  - done.
  - by destruct (Js.is_unreserved b).
  - by destruct (Js.is_unreserved a).
  - destruct (Js.is_unreserved a) eqn:Ha, (Js.is_unreserved b) eqn:Hb.
    + intros [= -> Hrest]. f_equal. by apply IH.
    + intros [= -> _]. done.
    + intros [= <- _]. done.
    + intros [= Hhigh Hlow Hrest].
      rewrite (same_hex_digits a b Hhigh Hlow). f_equal. by apply IH.
Qed.

Lemma url_safe_link a : url_safe a = true → link_char a = true.
Proof. unfold link_char. by intros ->. Qed.

(** One [key=value,value] entry of an encoded query. *)
Lemma encoded_values_chars (values : list string) :
  every_char link_char (Js.join "," (Js.encodeURIComponent <$> values)) = true
  ∧ has_char "=" (Js.join "," (Js.encodeURIComponent <$> values)) = false
  ∧ has_char "&" (Js.join "," (Js.encodeURIComponent <$> values)) = false.
Proof.
  induction values as [|x values IH].
  { done. }
  assert (Hx := encodeURIComponent_url_safe x).
  destruct values as [|y values].
  { simpl. split; [by apply (every_char_weaken url_safe), Hx; apply url_safe_link|].
    split; by apply (every_char_excludes url_safe), Hx. }
  destruct IH as (Hall & Heq & Hamp).
  change (Js.join "," (Js.encodeURIComponent <$> x :: y :: values))
    with (Js.encodeURIComponent x +:+ "," +:+
          Js.join "," (Js.encodeURIComponent <$> y :: values)).
  rewrite !every_char_app, !has_char_app, Hall, Heq, Hamp.
  rewrite (every_char_weaken url_safe link_char _ url_safe_link Hx).
  rewrite (every_char_excludes url_safe "=" _ eq_refl Hx).
  by rewrite (every_char_excludes url_safe "&" _ eq_refl Hx).
Qed.

Lemma encodeUrl_encoded object :
  encodeUrl object true
  = Js.join "&"
      ((λ kv, Js.encodeURIComponent kv.1 +:+ "=" +:+
              Js.join "," (Js.encodeURIComponent <$> url_values kv.2))
         <$> object).
Proof. reflexivity. Qed.

Lemma encoded_entry_chars (kv : string * UrlValue) :
  let entry := Js.encodeURIComponent kv.1 +:+ "=" +:+
               Js.join "," (Js.encodeURIComponent <$> url_values kv.2) in
  every_char link_char entry = true
  ∧ has_char "&" entry = false
  ∧ Js.split "=" entry
    = [Js.encodeURIComponent kv.1;
       Js.join "," (Js.encodeURIComponent <$> url_values kv.2)].
Proof.
  intros entry. subst entry.
  assert (Hk := encodeURIComponent_url_safe kv.1).
  destruct (encoded_values_chars (url_values kv.2)) as (Hall & Heq & Hamp).
  split; [|split].
  - rewrite !every_char_app, Hall.
    by rewrite (every_char_weaken url_safe link_char _ url_safe_link Hk).
  - rewrite !has_char_app, Hamp.
    by rewrite (every_char_excludes url_safe "&" _ eq_refl Hk).
  - change (Js.encodeURIComponent kv.1 +:+ "=" +:+ ?rest)
      with (Js.encodeURIComponent kv.1 +:+ String "=" rest).
    rewrite split_first_part by (by apply (every_char_excludes url_safe), Hk).
    f_equal. by apply split_whole.
Qed.

(** X9. A query built with [encode = true] can be taken apart again:
    splitting it at [&] and each entry at [=] gives, entry by entry and
    in the order of the object, the encoded key and the comma-joined
    encoded values. *)
Theorem encodeUrl_splits_into_entries object :
  object ≠ [] →
  Js.split "=" <$> Js.split "&" (encodeUrl object true)
  = (λ kv, [Js.encodeURIComponent kv.1;
            Js.join "," (Js.encodeURIComponent <$> url_values kv.2)])
      <$> object.
Proof.
  intros Hne. rewrite encodeUrl_encoded.
  rewrite (split_join "&"%char).
  - rewrite <- list_fmap_compose. apply list_fmap_ext.
    intros _ kv _. apply encoded_entry_chars.
  - by destruct object.
  - apply Forall_fmap, Forall_forall. intros kv _. apply encoded_entry_chars.
Qed.

Lemma encodeUrl_splits_into_entries_witness :
  Js.split "=" <$>
    Js.split "&" (encodeUrl [("afid", Single "P1&x"); ("ids", Many ["a b"; "c"])] true)
  = [["afid"; "P1%26x"]; ["ids"; "a%20b,c"]].
Proof.
  apply (encodeUrl_splits_into_entries
           [("afid", Single "P1&x"); ("ids", Many ["a b"; "c"])]).
  discriminate.
Defined.

Lemma every_char_join P sep l :
  every_char P sep = true → Forall (λ s, every_char P s = true) l →
  every_char P (Js.join sep l) = true.
Proof.
  intros Hsep. induction 1 as [|x l Hx _ IH]; [done|].
  destruct l as [|y l]; [done|].
  change (Js.join sep (x :: y :: l)) with (x +:+ sep +:+ Js.join sep (y :: l)).
  by rewrite !every_char_app, Hx, Hsep, IH.
Qed.

Lemma encodeUrl_chars object : every_char link_char (encodeUrl object true) = true.
Proof.
  rewrite encodeUrl_encoded. apply every_char_join; [done|].
  apply Forall_fmap, Forall_forall. intros kv _. apply encoded_entry_chars.
Qed.

(** X10. Both viewer links are the viewer address, a question mark and
    an encoded query: they hold only unreserved characters, percent
    signs and the separators of a url, so the blanks, semicolons and
    bars of the command script never appear in them. *)
Theorem viewer_links_are_encoded date r :
  (∃ query,
     getIcn3dAlphafoldUrl date r = icn3d_base +:+ "?" +:+ query
     ∧ every_char link_char query = true)
  ∧ (∃ query,
       getIcn3dPdbUrl date r = icn3d_base +:+ "?" +:+ query
       ∧ every_char link_char query = true)
  ∧ has_char " " (getIcn3dAlphafoldUrl date r) = false
  ∧ has_char " " (getIcn3dPdbUrl date r) = false.
Proof.
  assert (Hbase : every_char link_char (icn3d_base +:+ "?") = true) by done.
  assert (Hlink : ∀ query, every_char link_char query = true →
            has_char " " (icn3d_base +:+ "?" +:+ query) = false).
  { intros query Hquery. apply (every_char_excludes link_char); [done|].
    change (icn3d_base +:+ "?" +:+ query) with ((icn3d_base +:+ "?") +:+ query).
    by rewrite every_char_app, Hbase, Hquery. }
  unfold getIcn3dAlphafoldUrl, getIcn3dPdbUrl.
  split; [|split; [|split]].
  - eexists. split; [reflexivity|apply encodeUrl_chars].
  - eexists. split; [reflexivity|apply encodeUrl_chars].
  - apply Hlink, encodeUrl_chars.
  - apply Hlink, encodeUrl_chars.
Qed.

(** ** Record Assembler: which records, in which order *)

Lemma collect_cons result data :
  Assembler.collect (result :: data)
  = made ← Assembler.first_pass result;
    pushed ← Assembler.collect data;
    mret (option_list made ++ pushed).
Proof.
  unfold Assembler.collect. simpl.
  destruct (Assembler.first_pass result) as [[r|]|]; simpl; [| |done];
    by destruct (Js.for_each Assembler.first_pass data).
Qed.

Lemma first_pass_skips result :
  Assembler.select result = None → Assembler.first_pass result = Js.Normal None.
Proof. unfold Assembler.first_pass. by intros ->. Qed.

Lemma first_pass_selected result c made :
  Assembler.select result = Some c →
  Assembler.first_pass result = Js.Normal made →
  ∃ r, made = Some r ∧ consequence r = c ∧ variant r = result ≫= input.
Proof.
  unfold Assembler.first_pass. intros ->.
  destruct (Assembler.accession c); simpl; [|done].
  destruct (Assembler.amino_acid_parts c); simpl; [|done].
  intros [= <-]. by eexists.
Qed.

(** What the first loop pushes: one record for each element that has an
    eligible consequence, in the order of the input. *)
Lemma collect_selected data pushed :
  Assembler.collect data = Js.Normal pushed →
  consequence <$> pushed = omap Assembler.select data
  ∧ variant <$> pushed
    = omap (λ result, _ ← Assembler.select result; Some (result ≫= input)) data.
Proof.
  revert pushed. induction data as [|result data IH]; intros pushed.
  { by intros [= <-]. }
  rewrite collect_cons.
  destruct (Assembler.first_pass result) as [made|] eqn:Hfirst; simpl; [|done].
  destruct (Assembler.collect data) as [rest|]; simpl; [|done].
  intros [= <-]. destruct (IH rest eq_refl) as [IHc IHv].
  rewrite !fmap_app, IHc, IHv.
  destruct (Assembler.select result) as [c|] eqn:Hselect.
  - destruct (first_pass_selected _ _ _ Hselect Hfirst) as (r & -> & Hc & Hv).
    simpl. by rewrite Hc, Hv.
  - rewrite (first_pass_skips _ Hselect) in Hfirst. injection Hfirst as <-.
    done.
Qed.

(** The second and third loops keep every field copied by the first. *)
Lemma attach_keeps bestStructures r r' :
  Assembler.attach bestStructures r = Js.Normal r' →
  geneId r' = geneId r
  ∧ aminoAcidMutationPosition r' = aminoAcidMutationPosition r
  ∧ siftScore r' = siftScore r ∧ polyphenScore r' = polyphenScore r.
Proof.
  unfold Assembler.attach.
  destruct (get_property bestStructures (uniprotId r)) as [[|best rest]| |];
    intros [= <-]; done.
Qed.

Lemma visualize_keeps date r :
  let r' := Assembler.visualize date r in
  geneId r' = geneId r
  ∧ aminoAcidMutationPosition r' = aminoAcidMutationPosition r
  ∧ siftScore r' = siftScore r ∧ polyphenScore r' = polyphenScore r.
Proof.
  unfold Assembler.visualize.
  destruct (Assembler.high_impact r); simpl; [|done].
  destruct (Js.truthy (pdbId r)); done.
Qed.

Lemma annotate_keeps bestStructures date pushed out :
  Assembler.annotate bestStructures date pushed = Js.Normal out →
  consequence <$> out = consequence <$> pushed
  ∧ variant <$> out = variant <$> pushed.
Proof.
  unfold Assembler.annotate.
  destruct (Js.for_each _ pushed) as [attached|] eqn:Hattached; [|done].
  simpl. intros [= <-]. apply for_each_normal in Hattached.
  induction Hattached as [|r0 r1 pushed attached Hattach _ [IHc IHv]]; [done|].
  rewrite !fmap_cons, IHc, IHv.
  destruct (visualize_fields date r1) as (-> & _ & _ & _ & _ & _ & _ & _ & ->).
  by destruct (attach_fields _ _ _ Hattach) as (-> & _ & _ & _ & _ & _ & _ & _ & ->).
Qed.

(** X11. When no element of the batch has an eligible consequence (in
    particular on an empty response), nothing is assembled, and the
    Structure Mapper is still called, with an empty list. *)
Theorem nothing_eligible_nothing_assembled pdbe date data :
  Forall (λ result, Assembler.select result = None) data →
  processVariantConsequences pdbe date data = ([BestStructures []], Js.Normal []).
Proof.
  intros Hnone.
  assert (Assembler.collect data = Js.Normal []) as Hcollect.
  { induction Hnone as [|result data Hresult _ IH]; [done|].
    by rewrite collect_cons, (first_pass_skips _ Hresult), IH. }
  unfold processVariantConsequences. by rewrite Hcollect.
Qed.

Lemma nothing_eligible_nothing_assembled_witness :
  processVariantConsequences one_structure fifth_of_january
    [None; Some variant_A]
  = ([BestStructures []], Js.Normal []).
Proof.
  apply (nothing_eligible_nothing_assembled one_structure fifth_of_january).
  repeat constructor.
Defined.

Lemma omap_at_most {A B} (f : A → option B) (l : list A) :
  (length (omap f l) ≤ length l)%nat.
Proof.
  induction l as [|x l IH]; [done|].
  change (omap f (x :: l))
    with (match f x with Some y => y :: omap f l | None => omap f l end).
  destruct (f x); simpl; lia.
Qed.

(** X12. A completed call returns one record for each element of the
    response that has an eligible transcript consequence, in the order of
    the response; the record carries that element's [input] and its
    selected consequence. *)
Theorem records_follow_the_response pdbe date data out :
  (processVariantConsequences pdbe date data).2 = Js.Normal out →
  consequence <$> out = omap Assembler.select data
  ∧ variant <$> out
    = omap (λ result, _ ← Assembler.select result; Some (result ≫= input)) data
  ∧ (length out ≤ length data)%nat.
Proof.
  rewrite processVariantConsequences_outcome. unfold assemble_under.
  destruct (Assembler.collect data) as [pushed|] eqn:Hcollect; simpl; [|done].
  intros Hout.
  destruct (annotate_keeps _ _ _ _ Hout) as [Hc Hv].
  destruct (collect_selected _ _ Hcollect) as [Hc0 Hv0].
  split; [congruence|]. split; [congruence|].
  rewrite <- (length_fmap consequence), Hc, Hc0. apply omap_at_most.
Qed.

Lemma records_follow_the_response_witness :
  ∃ out,
    (processVariantConsequences one_structure fifth_of_january scenario).2
    = Js.Normal out
    ∧ variant <$> out = [input variant_B; input variant_C].
Proof.
  destruct (processVariantConsequences one_structure fifth_of_january scenario).2
    as [out|] eqn:Hout; [|by vm_compute in Hout].
  exists out. split; [reflexivity|].
  by destruct (records_follow_the_response _ _ _ _ Hout) as (_ & -> & _).
Defined.

Lemma find_first {A} (f : A → bool) l x :
  List.find f l = Some x →
  ∃ before after,
    l = before ++ x :: after ∧ f x = true
    ∧ Forall (λ y, f y = false) before.
Proof.
  induction l as [|y l IH]; [done|]. simpl.
  destruct (f y) eqn:Hy.
  - intros [= ->]. by exists [], l.
  - intros (before & after & -> & Hx & Hbefore)%IH.
    exists (y :: before), after. by repeat constructor.
Qed.

(** X13. The consequence a record is built from is the first eligible
    one of its prediction, in the order the service returned them: it
    carries a prediction label and a non-empty accession list, and no
    transcript consequence before it does. *)
Theorem record_uses_first_eligible pdbe date data out r :
  (processVariantConsequences pdbe date data).2 = Js.Normal out → r ∈ out →
  ∃ prediction before after,
    Some prediction ∈ data
    ∧ variant r = input prediction
    ∧ transcript_consequences prediction = Some (before ++ consequence r :: after)
    ∧ Assembler.eligible (consequence r) = true
    ∧ Forall (λ c, Assembler.eligible c = false) before.
Proof.
  intros Hout Hin.
  destruct (record_history _ _ _ _ _ Hout Hin)
    as (pushed & result & r0 & r1 & _ & Hresult & Hfirst & Hattach & ->).
  destruct (first_pass_pushed _ _ Hfirst) as (c & Hselect & Hc & Hv & _).
  destruct (visualize_fields date r1) as (-> & _ & _ & _ & _ & _ & _ & _ & ->).
  destruct (attach_fields _ _ _ Hattach) as (-> & _ & _ & _ & _ & _ & _ & _ & ->).
  rewrite Hc, Hv. clear Hc Hv.
  unfold Assembler.select in Hselect.
  destruct result as [prediction|]; simpl in Hselect; [|done].
  destruct (transcript_consequences prediction) as [tcs|] eqn:Htcs;
    simpl in Hselect; [|done].
  destruct (find_first _ _ _ Hselect) as (before & after & -> & Hc & Hbefore).
  by exists prediction, before, after.
Qed.

Lemma record_uses_first_eligible_witness :
  ∃ r prediction before after,
    variant r = input prediction
    ∧ transcript_consequences prediction = Some (before ++ consequence r :: after)
    ∧ Assembler.eligible (consequence r) = true.
Proof.
  destruct (processVariantConsequences one_structure fifth_of_january scenario).2
    as [[|r out]|] eqn:Hout; try by vm_compute in Hout.
  destruct (record_uses_first_eligible _ _ _ _ r Hout)
    as (prediction & before & after & _ & Hv & Htcs & Hc & _);
    [apply list_elem_of_here|].
  by exists r, prediction, before, after.
Defined.

(** ** Record Assembler: derived fields *)

(** The first part of a split string holds no separator, and the string
    is this part alone or this part, the separator and a remainder. *)
Lemma split_head sep s :
  ∃ first others,
    Js.split sep s = first :: others
    ∧ has_char sep first = false
    ∧ (s = first ∨ ∃ remainder, s = first +:+ String sep remainder).
Proof.
  induction s as [|a s (first & others & Hsplit & Hfirst & Hshape)].
  { exists "", []. split; [done|]. split; [done|]. by left. }
  simpl. destruct (decide (a = sep)) as [->|Hne].
  - exists "", (Js.split sep s). split; [done|]. split; [done|].
    right. by exists s.
  - rewrite Hsplit. exists (String a first), others.
    split; [done|]. split.
    + simpl. rewrite Hfirst. by rewrite bool_decide_eq_false_2.
    + destruct Hshape as [->|[remainder ->]]; [by left|right].
      by exists remainder.
Qed.

(** X14. The accession of a record is the first accession of its
    consequence up to the first dot: it holds no dot, and the listed
    accession is the record's accession alone or followed by a dot and a
    version suffix. *)
Theorem accession_drops_version pdbe date data out r :
  (processVariantConsequences pdbe date data).2 = Js.Normal out → r ∈ out →
  has_char "." (uniprotId r) = false
  ∧ ∃ listed others,
      swissprot (consequence r) = Some (listed :: others)
      ∧ (listed = uniprotId r
         ∨ ∃ version, listed = uniprotId r +:+ "." +:+ version).
Proof.
  intros Hout Hin.
  destruct (record_history _ _ _ _ _ Hout Hin)
    as (pushed & result & r0 & r1 & _ & _ & Hfirst & Hattach & ->).
  destruct (first_pass_pushed _ _ Hfirst) as (c & _ & Hc & _ & Hid & _).
  destruct (visualize_fields date r1) as (_ & -> & _ & _ & _ & _ & _ & _ & ->).
  destruct (attach_fields _ _ _ Hattach) as (_ & -> & _ & _ & _ & _ & _ & _ & ->).
  rewrite Hc. unfold Assembler.accession in Hid.
  destruct (swissprot c) as [[|listed others]|]; try done.
  injection Hid as Hid.
  destruct (split_head "." listed) as (first & parts & Hsplit & Hfirst' & Hshape).
  rewrite Hsplit in Hid. simpl in Hid. subst first.
  split; [done|]. exists listed, others. split; [done|].
  destruct Hshape as [->|[version ->]]; [by left|right]. by exists version.
Qed.

Lemma accession_drops_version_witness :
  ∃ r, has_char "." (uniprotId r) = false
    ∧ swissprot (consequence r) = Some ["P12345.2"]
    ∧ uniprotId r = "P12345".
Proof.
  destruct (processVariantConsequences one_structure fifth_of_january
              [Some variant_B]).2 as [[|r out]|] eqn:Hout;
    try by vm_compute in Hout.
  destruct (accession_drops_version _ _ _ _ r Hout) as (Hdot & _);
    [apply list_elem_of_here|].
  exists r. split; [exact Hdot|].
  vm_compute in Hout. injection Hout as <- _. by split.
Defined.

(** X15. For an amino-acid change of the form before/after, with one
    separator, the record's mutation notation is the residue before, the
    protein position in decimal (nothing when the position is missing)
    and the residue after, with nothing between them. *)
Theorem mutation_notation pdbe date data out r before after :
  (processVariantConsequences pdbe date data).2 = Js.Normal out → r ∈ out →
  amino_acids (consequence r) = Some (before +:+ "/" +:+ after) →
  has_char "/" before = false → has_char "/" after = false →
  aminoAcids r = [before; after]
  ∧ aminoAcidMutation r
    = before +:+
      default "" (Js.number_to_string <$> protein_start (consequence r))
      +:+ after
  ∧ aminoAcidMutationPosition r = protein_start (consequence r).
Proof.
  intros Hout Hin Hamino Hbefore Hafter.
  destruct (record_history _ _ _ _ _ Hout Hin)
    as (pushed & result & r0 & r1 & _ & _ & Hfirst & Hattach & ->).
  destruct (visualize_fields date r1)
    as (_ & _ & _ & _ & Hparts & Hmut & _ & _ & Hc).
  destruct (visualize_keeps date r1) as (_ & Hpos & _).
  destruct (attach_fields _ _ _ Hattach)
    as (_ & _ & Hparts1 & Hmut1 & _ & _ & _ & _ & Hc1).
  destruct (attach_keeps _ _ _ Hattach) as (_ & Hpos1 & _).
  rewrite Hc, Hc1 in Hamino |- *. rewrite Hparts, Hparts1, Hmut, Hmut1, Hpos, Hpos1.
  clear Hparts Hparts1 Hmut Hmut1 Hpos Hpos1 Hc Hc1 Hattach.
  unfold Assembler.first_pass in Hfirst.
  destruct (Assembler.select result) as [c|]; [|done].
  destruct (Assembler.accession c) as [id|]; simpl in Hfirst; [|done].
  unfold Assembler.amino_acid_parts in Hfirst.
  destruct (amino_acids c) as [s|] eqn:Hs; simpl in Hfirst; [|done].
  injection Hfirst as <-. simpl in *. rewrite Hs in Hamino.
  injection Hamino as ->.
  change (before +:+ "/" +:+ after) with (before +:+ String "/" after).
  rewrite split_first_part, split_whole by done.
  split; [done|]. split; [|done].
  by destruct (protein_start c).
Qed.

Lemma mutation_notation_witness :
  ∃ r, aminoAcids r = ["A"; "V"] ∧ aminoAcidMutation r = "A42V".
Proof.
  destruct (processVariantConsequences one_structure fifth_of_january
              [Some variant_B]).2 as [[|r out]|] eqn:Hout;
    try by vm_compute in Hout.
  destruct (mutation_notation _ _ _ _ r "A" "V" Hout) as (Hparts & Hmut & _).
  - apply list_elem_of_here.
  - vm_compute in Hout. by injection Hout as <- _.
  - reflexivity.
  - reflexivity.
  - exists r. split; [exact Hparts|].
    rewrite Hmut. vm_compute in Hout. by injection Hout as <- _.
Defined.

Lemma loops_keep_copies bestStructures date r0 r1 :
  Assembler.attach bestStructures r0 = Js.Normal r1 →
  let r := Assembler.visualize date r1 in
  geneId r = geneId r0
  ∧ aminoAcidMutationPosition r = aminoAcidMutationPosition r0
  ∧ siftPrediction r = siftPrediction r0 ∧ siftScore r = siftScore r0
  ∧ polyphenPrediction r = polyphenPrediction r0
  ∧ polyphenScore r = polyphenScore r0
  ∧ consequence r = consequence r0.
Proof.
  intros Hattach r. subst r.
  destruct (visualize_fields date r1) as (_ & _ & _ & _ & _ & _ & -> & -> & ->).
  destruct (visualize_keeps date r1) as (-> & -> & -> & ->).
  destruct (attach_fields _ _ _ Hattach) as (_ & _ & _ & _ & -> & -> & _ & _ & ->).
  by destruct (attach_keeps _ _ _ Hattach) as (-> & -> & -> & ->).
Qed.

(** X16. The gene, the protein position, and both prediction labels and
    scores of a returned record are those of the consequence it carries:
    the structure lookup and the link construction leave them
    untouched. *)
Theorem record_reports_its_consequence pdbe date data out r :
  (processVariantConsequences pdbe date data).2 = Js.Normal out → r ∈ out →
  geneId r = gene_id (consequence r)
  ∧ aminoAcidMutationPosition r = protein_start (consequence r)
  ∧ siftPrediction r = sift_prediction (consequence r)
  ∧ siftScore r = sift_score (consequence r)
  ∧ polyphenPrediction r = polyphen_prediction (consequence r)
  ∧ polyphenScore r = polyphen_score (consequence r).
Proof.
  intros Hout Hin.
  destruct (record_history _ _ _ _ _ Hout Hin)
    as (pushed & result & r0 & r1 & _ & _ & Hfirst & Hattach & ->).
  destruct (loops_keep_copies _ date _ _ Hattach)
    as (-> & -> & -> & -> & -> & -> & ->).
  unfold Assembler.first_pass in Hfirst.
  destruct (Assembler.select result) as [c|]; [|done].
  destruct (Assembler.accession c) as [id|]; simpl in Hfirst; [|done].
  destruct (Assembler.amino_acid_parts c) as [parts|]; simpl in Hfirst; [|done].
  by injection Hfirst as <-.
Qed.

Lemma record_reports_its_consequence_witness :
  ∃ r, siftPrediction r = sift_prediction (consequence r)
    ∧ siftPrediction r = Some "deleterious".
Proof.
  destruct (processVariantConsequences one_structure fifth_of_january
              [Some variant_B]).2 as [[|r out]|] eqn:Hout;
    try by vm_compute in Hout.
  destruct (record_reports_its_consequence _ _ _ _ r Hout)
    as (_ & _ & Hsift & _); [apply list_elem_of_here|].
  exists r. split; [exact Hsift|].
  vm_compute in Hout. by injection Hout as <- _.
Defined.

(** ** Record Assembler: exceptions and the structure lookup *)

Lemma for_each_throws {A B} (f : A → Js.Completion B) l :
  Js.for_each f l = Js.Throw Js.TypeError
  ↔ ∃ x, x ∈ l ∧ f x = Js.Throw Js.TypeError.
Proof.
  induction l as [|x l IH]; simpl.
  - split; [done|]. by intros (x & Hx%elem_of_nil & _).
  - destruct (f x) as [y|[]] eqn:Hx; simpl.
    + destruct (Js.for_each f l) as [ys|[]]; simpl.
      * split; [done|]. intros (z & [->|Hz]%elem_of_cons & Hthrow); [congruence|].
        assert (Js.Normal ys = Js.Throw Js.TypeError) as Habs; [|done].
        apply IH. eauto.
      * split; [|done]. intros _.
        destruct (proj1 IH eq_refl) as (z & Hz & Hthrow).
        exists z. split; [by right|done].
    + split; [|done]. intros _. exists x. split; [by left|done].
Qed.

Lemma first_pass_throws result :
  Assembler.first_pass result = Js.Throw Js.TypeError
  ↔ ∃ c, Assembler.select result = Some c ∧ amino_acids c = None.
Proof.
  unfold Assembler.first_pass.
  destruct (Assembler.select result) as [c|] eqn:Hselect.
  - destruct (eligible_accession c (select_eligible _ _ Hselect)) as [id ->].
    unfold Assembler.amino_acid_parts. simpl.
    destruct (amino_acids c) as [s|] eqn:Hs; simpl.
    + split; [done|]. intros (c' & [= <-] & Hnone). congruence.
    + split; [|done]. intros _. by exists c.
  - split; [done|]. by intros (c & ? & _).
Qed.

Lemma attach_throws bestStructures r :
  Assembler.attach bestStructures r = Js.Throw Js.TypeError
  ↔ bestStructures !! uniprotId r = Some []
    ∨ (bestStructures !! uniprotId r = None
       ∧ uniprotId r ∈ object_prototype_keys).
Proof.
  unfold Assembler.attach, get_property.
  destruct (bestStructures !! uniprotId r) as [[|best rest]|].
  - split; [by left|done].
  - split; [done|]. by intros [|[]].
  - case_bool_decide.
    + split; [by right|done].
    + split; [done|]. by intros [|[]].
Qed.

(** X17. The call throws in exactly two situations: an element's
    selected consequence has no [amino_acids] property, or the accession
    of an assembled record is mapped to an empty candidate list or, being
    absent from the mapping, is the name of a member every object
    inherits (such as [constructor]). *)
Theorem processVariantConsequences_throws pdbe date data :
  (processVariantConsequences pdbe date data).2 = Js.Throw Js.TypeError
  ↔ (∃ result c,
       result ∈ data ∧ Assembler.select result = Some c ∧ amino_acids c = None)
    ∨ (∃ pushed r,
         Assembler.collect data = Js.Normal pushed ∧ r ∈ pushed
         ∧ let entry :=
             getBestStructures pdbe (uniprotId <$> pushed) !! uniprotId r in
           entry = Some []
           ∨ (entry = None ∧ uniprotId r ∈ object_prototype_keys)).
Proof.
  unfold processVariantConsequences.
  destruct (Assembler.collect data) as [pushed|[]] eqn:Hcollect; simpl.
  - unfold Assembler.annotate.
    destruct (Js.for_each _ pushed) as [attached|[]] eqn:Hattached; simpl.
    + split; [done|]. intros [(result & c & Hin & Hselect & Hnone)|Hentry].
      * assert (Js.for_each Assembler.first_pass data = Js.Throw Js.TypeError)
          as Hthrow.
        { apply for_each_throws. exists result. split; [done|].
          apply first_pass_throws. eauto. }
        unfold Assembler.collect in Hcollect. by rewrite Hthrow in Hcollect.
      * destruct Hentry as (pushed' & r & [= <-] & Hin & Hentry).
        assert (Js.for_each
                  (Assembler.attach (getBestStructures pdbe (uniprotId <$> pushed)))
                  pushed = Js.Throw Js.TypeError) as Hthrow.
        { apply for_each_throws. exists r. split; [done|].
          by apply attach_throws. }
        congruence.
    + split; [|done]. intros _. right.
      apply for_each_throws in Hattached as (r & Hin & Hthrow).
      exists pushed, r. split; [done|]. split; [done|].
      by apply attach_throws.
  - split; [|done]. intros _. left.
    unfold Assembler.collect in Hcollect.
    destruct (Js.for_each Assembler.first_pass data) as [made|[]] eqn:Hmade;
      [done|].
    apply for_each_throws in Hmade as (result & Hin & Hthrow).
    apply first_pass_throws in Hthrow as (c & Hselect & Hnone).
    by exists result, c.
Qed.

Lemma processVariantConsequences_throws_witness :
  (processVariantConsequences one_structure fifth_of_january
     [Some variant_B; Some variant_without_amino_acids]).2
  = Js.Throw Js.TypeError.
Proof.
  apply (proj2 (processVariantConsequences_throws one_structure fifth_of_january
                  [Some variant_B; Some variant_without_amino_acids])).
  left. eexists _, _. split; [apply list_elem_of_further, list_elem_of_here|].
  split; reflexivity.
Defined.

(** The structure fields of a returned record are a function of the
    mapping's entry for its accession. *)
Lemma record_structure pdbe date data ids out r :
  processVariantConsequences pdbe date data = ([BestStructures ids], Js.Normal out) →
  r ∈ out →
  structure_of (getBestStructures pdbe ids !! uniprotId r)
  = (pdbId r, pdbStructures r)
  ∧ (getBestStructures pdbe ids !! uniprotId r = None →
     (uniprotId r ∉ object_prototype_keys) ∧ icn3dPdb r = None).
Proof.
  intros Hrun Hin.
  assert (Hout : (processVariantConsequences pdbe date data).2 = Js.Normal out)
    by (by rewrite Hrun).
  destruct (record_history _ _ _ _ _ Hout Hin)
    as (pushed & result & r0 & r1 & Hpushed & _ & Hfirst & Hattach & ->).
  assert (ids = uniprotId <$> pushed) as ->.
  { unfold processVariantConsequences in Hrun. rewrite Hpushed in Hrun.
    congruence. }
  set (bs := getBestStructures pdbe (uniprotId <$> pushed)) in *.
  destruct (first_pass_pushed _ _ Hfirst)
    as (c & _ & _ & _ & _ & _ & _ & _ & _ & Hid0 & Hst0 & Hpdb0 & _).
  destruct (visualize_fields date r1) as (_ & Huid & Hid & Hst & _).
  destruct (attach_fields _ _ _ Hattach) as (_ & Huid1 & _ & _ & _ & _ & Hpdb1 & _).
  pose proof (attach_structure _ _ _ Hattach) as Hstruct.
  pose proof (proj1 (attach_throws bs r0)) as Hthrows.
  rewrite Hid, Hst, Huid, Huid1.
  destruct (bs !! uniprotId r0) as [[|best rest]|] eqn:Hentry.
  - destruct Hstruct as (best & [=] & _).
  - destruct Hstruct as (best' & [= <-] & -> & ->). split; [done|]. done.
  - destruct Hstruct as [-> ->]. rewrite Hid0, Hst0. split; [done|].
    intros _. split.
    + intros Hkey. rewrite Hattach in Hthrows.
      assert (Js.Normal r1 = Js.Throw Js.TypeError) as Habs; [|done].
      unfold Assembler.attach, get_property in Hattach.
      rewrite Hentry, bool_decide_eq_true_2 in Hattach by done. done.
    + unfold Assembler.visualize.
      assert (pdbId r1 = None) as Hnone.
      { unfold Assembler.attach, get_property in Hattach.
        rewrite Hentry in Hattach. case_bool_decide; [done|].
        injection Hattach as <-. done. }
      destruct (Assembler.high_impact r1); simpl; [|congruence].
      rewrite Hnone. simpl. congruence.
Qed.

(** X18. A record whose accession has no entry in the mapping keeps
    [pdbId] and [icn3dPdb] at [null] and gets no [pdbStructures]: an
    unknown accession is not an error. *)
Theorem unmapped_accession_has_no_structure pdbe date data ids out r :
  processVariantConsequences pdbe date data = ([BestStructures ids], Js.Normal out) →
  r ∈ out →
  getBestStructures pdbe ids !! uniprotId r = None →
  pdbId r = None ∧ pdbStructures r = None ∧ icn3dPdb r = None.
Proof.
  intros Hrun Hin Hentry.
  destruct (record_structure _ _ _ _ _ _ Hrun Hin) as [Hfields Hnone].
  rewrite Hentry in Hfields. injection Hfields as <- <-.
  by destruct (Hnone Hentry) as [_ ->].
Qed.

Lemma unmapped_accession_has_no_structure_witness :
  ∃ r, (processVariantConsequences no_structures fifth_of_january [Some variant_B]).2
       = Js.Normal [r]
    ∧ pdbId r = None ∧ pdbStructures r = None ∧ icn3dPdb r = None.
Proof.
  eexists. split; [vm_compute; reflexivity|].
  eapply (unmapped_accession_has_no_structure no_structures fifth_of_january
            [Some variant_B]).
  - vm_compute. reflexivity.
  - apply list_elem_of_here.
  - reflexivity.
Defined.

(** X19. Two records of one call that have the same accession have the
    same structure identifier and the same candidate list. *)
Theorem same_accession_same_structure pdbe date data out r1 r2 :
  (processVariantConsequences pdbe date data).2 = Js.Normal out →
  r1 ∈ out → r2 ∈ out →
  uniprotId r1 = uniprotId r2 →
  pdbId r1 = pdbId r2 ∧ pdbStructures r1 = pdbStructures r2.
Proof.
  intros Hout Hin1 Hin2 Hsame.
  destruct (processVariantConsequences_records _ _ _ _ Hout)
    as (pushed & _ & Hcalls & _).
  assert (Hrun : processVariantConsequences pdbe date data
                 = ([BestStructures (uniprotId <$> pushed)], Js.Normal out)).
  { rewrite (surjective_pairing (processVariantConsequences pdbe date data)).
    by rewrite Hcalls, Hout. }
  destruct (record_structure _ _ _ _ _ _ Hrun Hin1) as [H1 _].
  destruct (record_structure _ _ _ _ _ _ Hrun Hin2) as [H2 _].
  rewrite Hsame, H2 in H1. by injection H1 as <- <-.
Qed.

Lemma same_accession_same_structure_witness :
  ∃ rb rc,
    (processVariantConsequences one_structure fifth_of_january scenario).2
    = Js.Normal [rb; rc]
    ∧ pdbId rb = pdbId rc ∧ pdbStructures rb = pdbStructures rc.
Proof.
  destruct (processVariantConsequences one_structure fifth_of_january scenario).2
    as [[|rb [|rc [|]]]|] eqn:Hout; try by vm_compute in Hout.
  exists rb, rc. split; [reflexivity|].
  apply (same_accession_same_structure _ _ _ _ rb rc Hout).
  - apply list_elem_of_here.
  - apply list_elem_of_further, list_elem_of_here.
  - vm_compute in Hout. by injection Hout as <- <-.
Defined.

(** ** Pipeline Driver *)

Lemma no_request_among_mapper_calls (calls : list RemoteCall) :
  consequence_requests (Mapping <$> calls) = [].
Proof. induction calls as [|c calls IH]; [done|]. exact IH. Qed.

Lemma no_request_among_reads (reads : list ReadEvent) :
  consequence_requests (Reading <$> reads) = [].
Proof. induction reads as [|c reads IH]; [done|]. exact IH. Qed.

Lemma consequence_requests_app t1 t2 :
  consequence_requests (t1 ++ t2)
  = consequence_requests t1 ++ consequence_requests t2.
Proof. apply List.filter_app. Qed.

Lemma consequence_requests_request e t :
  consequence_requests (Request e :: t) = Request e :: consequence_requests t.
Proof. reflexivity. Qed.

Section driver.
Context (services : Services) (species : string)
        (vcfFileContents : list VariantRecord).

(** A completed run of the loop, from the state in which the generator
    has counter [i]: the generator was drained, every yielded batch was
    assembled, and the records are the accumulated ones followed by
    those of the batches in order. *)
Lemma batches_completed fuel i k results trace final :
  Pipeline.batches fuel services species vcfFileContents i k results
  = (trace, Some (Js.Normal final)) →
  ∃ yielded outs,
    Chunk.drain fuel vcfFileContents 200 i = Some yielded
    ∧ Forall2 (λ kb out, (batch_outcome services species kb.1 kb.2).2 = Js.Normal out)
        (zip (seq k (length yielded)) yielded) outs
    ∧ final = results ++ concat outs
    ∧ consequence_requests trace = batch_request species <$> yielded.
Proof.
  revert i k results trace.
  induction fuel as [|fuel IH]; intros i k results trace Hrun; [done|].
  simpl in Hrun |- *.
  destruct (Chunk.next vcfFileContents 200 i) as [[variants i']|].
  - fold (batch_outcome services species k variants) in Hrun.
    destruct (batch_outcome services species k variants) as [calls outcome] eqn:Hbatch.
    simpl in Hrun. destruct outcome as [out|]; [|done].
    destruct (Pipeline.batches fuel services species vcfFileContents i' (S k)
                (results ++ out)) as [rest_trace rest] eqn:Hrest.
    simpl in Hrun. injection Hrun as <- ->.
    destruct (IH _ _ _ _ Hrest) as (yielded & outs & -> & Houts & -> & Hreq).
    exists (variants :: yielded), (out :: outs).
    split; [done|]. split; [constructor; [simpl; by rewrite Hbatch|done]|].
    split; [simpl; by rewrite app_assoc|].
    rewrite consequence_requests_request, consequence_requests_app, Hreq.
    by rewrite no_request_among_mapper_calls.
  - injection Hrun as <- <-. exists [], []. simpl.
    split; [done|]. split; [constructor|]. by rewrite app_nil_r.
Qed.

(** A run of the loop that throws: the batch that threw is the last one
    that was sent. *)
Lemma batches_thrown fuel i k results trace e yielded :
  Chunk.drain fuel vcfFileContents 200 i = Some yielded →
  Pipeline.batches fuel services species vcfFileContents i k results
  = (trace, Some (Js.Throw e)) →
  ∃ j variants,
    yielded !! j = Some variants
    ∧ (batch_outcome services species (k + j) variants).2 = Js.Throw e
    ∧ consequence_requests trace = batch_request species <$> take (S j) yielded.
Proof.
  revert i k results trace yielded.
  induction fuel as [|fuel IH]; intros i k results trace yielded Hdrain Hrun;
    [done|].
  simpl in Hrun, Hdrain.
  destruct (Chunk.next vcfFileContents 200 i) as [[variants i']|]; [|done].
  destruct (Chunk.drain fuel vcfFileContents 200 i') as [later|] eqn:Hlater;
    [|done].
  simpl in Hdrain. injection Hdrain as <-.
  fold (batch_outcome services species k variants) in Hrun.
  destruct (batch_outcome services species k variants) as [calls outcome] eqn:Hbatch.
  simpl in Hrun. destruct outcome as [out|e'].
  - destruct (Pipeline.batches fuel services species vcfFileContents i' (S k)
                (results ++ out)) as [rest_trace rest] eqn:Hrest.
    simpl in Hrun. injection Hrun as <- ->.
    destruct (IH _ _ _ _ _ Hlater Hrest) as (j & batch & Hj & Hthrow & Hreq).
    exists (S j), batch. split; [done|].
    split; [by replace (k + S j)%nat with (S k + j)%nat by lia|].
    rewrite consequence_requests_request, consequence_requests_app, Hreq.
    by rewrite no_request_among_mapper_calls.
  - destruct e, e'. injection Hrun as <-. exists 0%nat, variants.
    split; [done|]. split; [by rewrite Nat.add_0_r, Hbatch|].
    by rewrite consequence_requests_request, no_request_among_mapper_calls.
Qed.

(** Whenever the generator can be drained, the loop reaches an outcome. *)
Lemma batches_outcome fuel i k results yielded :
  Chunk.drain fuel vcfFileContents 200 i = Some yielded →
  ∃ outcome,
    (Pipeline.batches fuel services species vcfFileContents i k results).2
    = Some outcome.
Proof.
  revert i k results yielded.
  induction fuel as [|fuel IH]; intros i k results yielded Hdrain; [done|].
  simpl in *.
  destruct (Chunk.next vcfFileContents 200 i) as [[variants i']|]; [|by eexists].
  destruct (Chunk.drain fuel vcfFileContents 200 i') as [later|] eqn:Hlater;
    [|done].
  destruct (processVariantConsequences _ _ _).2 as [out|e]; simpl; [|by eexists].
  by apply (IH _ _ _ later).
Qed.
End driver.

Lemma drain_concat {A} fuel (array : list A) chunkSize yielded :
  1 ≤ chunkSize →
  Chunk.drain fuel array chunkSize 0 = Some yielded →
  concat yielded = array.
Proof.
  intros Hsize Hdrain.
  destruct (drain_batches (S (max fuel (length array))) array chunkSize 0)
    as (batches & Hmore & Hcat & _); [lia..|].
  rewrite (drain_more_fuel _ _ _ _ _ _ Hdrain) in Hmore by lia.
  by injection Hmore as ->.
Qed.

(** X20. With more fuel than variants read, the driver reaches an
    outcome, whatever the file, the limit, the filter and the services:
    the batch size is the constant 200, so its loop always ends. *)
Theorem vizsnp_reaches_an_outcome fuel file services (limit : option Z) textFilter species :
  (length (readVcfFile file (default 1000%Z limit) textFilter).2 < fuel)%nat →
  ∃ outcome, (vizsnp fuel file services (limit : option Z) textFilter species).2 = Some outcome.
Proof.
  intros Hfuel. unfold vizsnp. simpl.
  set (contents := (readVcfFile file (default 1000%Z limit) textFilter).2) in *.
  destruct (drain_batches fuel contents 200 0) as (yielded & Hdrain & _); [lia..|].
  by apply (batches_outcome _ _ _ _ _ _ _ yielded).
Qed.

Lemma vizsnp_reaches_an_outcome_witness :
  ∃ outcome,
    (vizsnp 3 two_contigs scenario_services None None None).2 = Some outcome.
Proof.
  apply (vizsnp_reaches_an_outcome 3 two_contigs scenario_services None None None).
  vm_compute. lia.
Defined.

(** X21. A run that completes has sent one request to the consequence
    service for each batch of at most 200 of the variants read, in
    order, carrying the query lines of the batch; the batches put
    together are the variants read; and the result is, batch after
    batch, what the assembler returned for the answer. *)
Theorem vizsnp_completed fuel file services (limit : option Z) textFilter species trace results :
  vizsnp fuel file services (limit : option Z) textFilter species
  = (trace, Some (Js.Normal results)) →
  let read := readVcfFile file (default 1000%Z limit) textFilter in
  let sp := default "human" species in
  ∃ batches outs,
    chunk fuel read.2 200 = Some batches
    ∧ concat batches = read.2
    ∧ consequence_requests trace = batch_request sp <$> batches
    ∧ Forall2 (λ kb out, (batch_outcome services sp kb.1 kb.2).2 = Js.Normal out)
        (zip (seq 0 (length batches)) batches) outs
    ∧ results = concat outs.
Proof.
  intros Hrun read sp. unfold vizsnp in Hrun. cbv zeta in Hrun.
  fold read sp in Hrun.
  destruct (Pipeline.batches fuel services sp read.2 0 0 []) as [t outcome] eqn:Hloop.
  simpl in Hrun. injection Hrun as <- ->.
  destruct (batches_completed _ _ _ _ _ _ _ _ _ Hloop)
    as (batches & outs & Hdrain & Houts & -> & Hreq).
  exists batches, outs. split; [done|].
  split; [by apply (drain_concat fuel _ 200)|].
  split; [|done].
  by rewrite consequence_requests_app, Hreq, no_request_among_reads.
Qed.

Lemma vizsnp_completed_witness :
  ∃ trace results batches,
    vizsnp 3 two_contigs scenario_services None None None
    = (trace, Some (Js.Normal results))
    ∧ chunk 3 (readVcfFile two_contigs 1000 None).2 200 = Some batches
    ∧ consequence_requests trace = batch_request "human" <$> batches
    ∧ length batches = 1%nat ∧ length results = 2%nat.
Proof.
  destruct (vizsnp 3 two_contigs scenario_services None None None)
    as [trace [[results|]|]] eqn:Hrun; try by vm_compute in Hrun.
  destruct (vizsnp_completed _ _ _ _ _ _ _ _ Hrun)
    as (batches & outs & Hchunk & _ & Hreq & _ & _).
  exists trace, results, batches. split; [reflexivity|].
  split; [exact Hchunk|]. split; [exact Hreq|].
  vm_compute in Hchunk. injection Hchunk as <-.
  vm_compute in Hrun. injection Hrun as _ <-. done.
Defined.

(** X22. When the assembler throws on a batch, the run throws the same
    exception: the records of the batches before it are not returned,
    and no request is sent for the batches after it. *)
Theorem vizsnp_thrown fuel file services (limit : option Z) textFilter species trace e :
  let read := readVcfFile file (default 1000%Z limit) textFilter in
  let sp := default "human" species in
  (length read.2 < fuel)%nat →
  vizsnp fuel file services (limit : option Z) textFilter species = (trace, Some (Js.Throw e)) →
  ∃ batches j variants,
    chunk fuel read.2 200 = Some batches
    ∧ batches !! j = Some variants
    ∧ (batch_outcome services sp j variants).2 = Js.Throw e
    ∧ consequence_requests trace = batch_request sp <$> take (S j) batches.
Proof.
  intros read sp Hfuel Hrun. unfold vizsnp in Hrun. cbv zeta in Hrun.
  fold read sp in Hrun.
  destruct (Pipeline.batches fuel services sp read.2 0 0 []) as [t outcome] eqn:Hloop.
  simpl in Hrun. injection Hrun as <- ->.
  destruct (drain_batches fuel read.2 200 0) as (batches & Hdrain & _); [lia..|].
  destruct (batches_thrown _ _ _ _ _ _ _ _ _ _ Hdrain Hloop)
    as (j & variants & Hj & Hthrow & Hreq).
  exists batches, j, variants. split; [done|]. split; [done|]. split; [done|].
  by rewrite consequence_requests_app, Hreq, no_request_among_reads.
Qed.

Lemma vizsnp_thrown_witness :
  ∃ trace batches,
    vizsnp 3 two_contigs throwing_services None None None
    = (trace, Some (Js.Throw Js.TypeError))
    ∧ chunk 3 (readVcfFile two_contigs 1000 None).2 200 = Some batches
    ∧ consequence_requests trace = batch_request "human" <$> take 1 batches.
Proof.
  destruct (vizsnp 3 two_contigs throwing_services None None None)
    as [trace [[results|[]]|]] eqn:Hrun; try by vm_compute in Hrun.
  destruct (vizsnp_thrown 3 two_contigs throwing_services None None None
              trace Js.TypeError)
    as (batches & j & variants & Hchunk & Hj & _ & Hreq).
  - vm_compute. lia.
  - exact Hrun.
  - exists trace, batches. split; [reflexivity|]. split; [exact Hchunk|].
    vm_compute in Hchunk. injection Hchunk as <-.
    destruct j as [|j]; [exact Hreq|]. by destruct j.
Defined.

(** X23. When the reader returns no variant (an empty file, a filter that
    matches no line, a limit of zero or less), the driver contacts
    neither remote service and returns no record; the trace holds the
    block-lookup reads only. *)
Theorem vizsnp_nothing_read fuel file services (limit : option Z) textFilter species :
  (readVcfFile file (default 1000 limit) textFilter).2 = [] →
  vizsnp (S fuel) file services limit textFilter species
  = (Reading <$> (GetLines <$> refNames file), Some (Js.Normal [])).
Proof.
  intros Hnone. unfold vizsnp. rewrite Hnone. simpl.
  rewrite app_nil_r. do 2 f_equal.
  unfold readVcfFile, Reader.loop. by rewrite refs_trace.
Qed.

Lemma vizsnp_nothing_read_witness :
  vizsnp 1 two_contigs scenario_services (Some 0) None None
  = ([Reading (GetLines "1"); Reading (GetLines "2")], Some (Js.Normal [])).
Proof.
  apply (vizsnp_nothing_read 0 two_contigs scenario_services (Some 0) None None).
  reflexivity.
Defined.

Lemma assembled_at_most pdbe date data out :
  (processVariantConsequences pdbe date data).2 = Js.Normal out →
  (length out ≤ length data)%nat.
Proof.
  rewrite processVariantConsequences_outcome. unfold assemble_under.
  destruct (Assembler.collect data) as [pushed|] eqn:Hcollect; simpl; [|done].
  intros Hout.
  destruct (annotate_keeps _ _ _ _ Hout) as [Hc _].
  destruct (collect_selected _ _ Hcollect) as [Hc0 _].
  rewrite <- (length_fmap consequence), Hc, Hc0. apply omap_at_most.
Qed.

Lemma concat_at_most {A B} (P : A → list B → Prop) (f : A → nat) l outs :
  (∀ x out, P x out → (length out ≤ f x)%nat) →
  Forall2 P l outs →
  (length (concat outs) ≤ sum_list (f <$> l))%nat.
Proof.
  intros HP. induction 1 as [|x out l outs Hx _ IH]; [done|].
  rewrite fmap_cons. cbn [concat sum_list]. rewrite length_app.
  apply Nat.add_le_mono; [exact (HP _ _ Hx)|exact IH].
Qed.

Lemma sum_of_batch_lengths {A} (batches : list (list A)) k :
  sum_list ((λ kb : nat * list A, length kb.2)
              <$> zip (seq k (length batches)) batches)
  = length (concat batches).
Proof.
  revert k. induction batches as [|b batches IH]; intros k; [done|].
  cbn [length seq zip zip_with concat]. rewrite fmap_cons. cbn [sum_list].
  rewrite length_app, <- (IH (S k)). done.
Qed.

(** X24. If the consequence service never answers more predictions than
    it was sent queries, a run that completes returns at most [limit]
    records (1000 when no limit is given), for a non-negative limit. *)
Theorem vizsnp_at_most_limit fuel file services (limit : option Z) textFilter
    species trace results :
  (∀ variants sp,
     (length (getVariantConsequences (ensembl services) variants sp)
      ≤ length variants)%nat) →
  0 ≤ default 1000 limit →
  vizsnp fuel file services limit textFilter species
  = (trace, Some (Js.Normal results)) →
  Z.of_nat (length results) ≤ default 1000 limit.
Proof.
  intros Hservice Hlimit Hrun. unfold vizsnp in Hrun. cbv zeta in Hrun.
  set (read := readVcfFile file (default 1000 limit) textFilter) in *.
  set (sp := default "human" species) in *.
  destruct (Pipeline.batches fuel services sp read.2 0 0 []) as [t outcome] eqn:Hloop.
  simpl in Hrun. injection Hrun as <- ->.
  destruct (batches_completed _ _ _ _ _ _ _ _ _ Hloop)
    as (batches & outs & Hdrain & Houts & -> & _).
  simpl.
  pose proof (drain_concat fuel read.2 200 batches ltac:(lia) Hdrain) as Hcat.
  assert (length (concat outs) ≤ length (concat batches))%nat as Hle.
  { rewrite <- (sum_of_batch_lengths batches 0).
    eapply concat_at_most; [|exact Houts].
    intros [k variants] out Hout. simpl in *.
    apply assembled_at_most in Hout. etrans; [exact Hout|].
    etrans; [apply Hservice|]. by rewrite length_fmap. }
  assert (Z.of_nat (length read.2) ≤ default 1000 limit).
  { unfold read, readVcfFile, Reader.loop. by apply refs_bound. }
  rewrite Hcat in Hle. lia.
Qed.

Lemma stringify_some_variants x l :
  Json.stringify_variants (x :: l) ≠ Json.stringify_variants [].
Proof.
  unfold Json.stringify_variants. intros Heq%(f_equal (Js.drop_chars 13)).
  destruct l; simpl in Heq; discriminate.
Qed.

Lemma vizsnp_at_most_limit_witness :
  ∃ trace results,
    vizsnp 3 two_contigs one_answer_services (Some 2) None None
    = (trace, Some (Js.Normal results))
    ∧ Z.of_nat (length results) ≤ 2.
Proof.
  destruct (vizsnp 3 two_contigs one_answer_services (Some 2) None None)
    as [trace [[results|]|]] eqn:Hrun; try by vm_compute in Hrun.
  exists trace, results. split; [reflexivity|].
  apply (vizsnp_at_most_limit 3 two_contigs one_answer_services (Some 2) None None
           trace results).
  - intros variants sp. unfold getVariantConsequences.
    cbn [ensembl one_answer_services]. destruct variants as [|x l].
    + rewrite decide_True by done. simpl. lia.
    + rewrite decide_False by apply stringify_some_variants. simpl. lia.
  - simpl. lia.
  - exact Hrun.
Defined.

(** ** Protein-id-mapping client: a submission without job id *)

Lemma wait_events {R} (service : IdMapping R) fuel jobId polls :
  Forall (λ e, e = Sleep 1000 ∨ e = Fetch (ProteinIds.status_url jobId) None)
    (ProteinIds.wait service fuel jobId polls).1.
Proof.
  revert polls. induction fuel as [|fuel IH]; intros polls; simpl; [done|].
  destruct (status_results service _ polls); simpl.
  - constructor; [by right|constructor].
  - constructor; [by right|]. constructor; [by left|]. apply IH.
Qed.

(** X25. When the answer to the submission carries no job id, the client
    does not stop: it polls the status address of the job called
    "undefined", with the same one-second sleeps. *)
Theorem getProteinIds_without_job_id {R} (service : IdMapping R) fuel ids from to :
  run_job service
    (encodeUrl [("from", Single from); ("to", Single to); ("ids", ids)] false)
  = None →
  Forall (λ e, e = Sleep 1000
             ∨ e = Fetch "https://rest.uniprot.org/idmapping/status/undefined" None)
    (tail (getProteinIds service fuel ids from to).1).
Proof.
  intros Hjob. unfold getProteinIds. rewrite Hjob. simpl.
  apply (wait_events service fuel None 0).
Qed.

Lemma getProteinIds_without_job_id_witness :
  (getProteinIds no_job_id 2 (Single "ENSG01") "Ensembl" "UniProtKB-Swiss-Prot").1
  = [ Fetch "https://rest.uniprot.org/idmapping/run"
        (Some "from=Ensembl&to=UniProtKB-Swiss-Prot&ids=ENSG01");
      Fetch "https://rest.uniprot.org/idmapping/status/undefined" None; Sleep 1000;
      Fetch "https://rest.uniprot.org/idmapping/status/undefined" None; Sleep 1000 ]
  ∧ Forall (λ e, e = Sleep 1000
               ∨ e = Fetch "https://rest.uniprot.org/idmapping/status/undefined" None)
      (tail (getProteinIds no_job_id 2 (Single "ENSG01") "Ensembl"
               "UniProtKB-Swiss-Prot").1).
Proof.
  split; [reflexivity|].
  apply (getProteinIds_without_job_id no_job_id 2 (Single "ENSG01")
           "Ensembl" "UniProtKB-Swiss-Prot").
  reflexivity.
Defined.
